(** * vmp-import-resolver: the driver ([main.cpp]) and the parts of the
    pipeline its specification describes.

    The repository's driver is embedded as a function over a record of the
    services it calls (process access, the static image reader and the
    [vmp::] pipeline stages, whose bodies live in other translation units).
    A run yields the list of calls and log lines it made, in order, and its
    exit status. *)

From Stdlib Require Import ZArith List String Bool Lia Permutation.
From Stdlib Require Import Init.Byte.
Import ListNotations.
Open Scope string_scope.
Open Scope list_scope.
Open Scope Z_scope.

(** ** Values of the C++ standard library *)

(** How the process ends: [main] returns [EXIT_SUCCESS] or [EXIT_FAILURE] of
    <cstdlib>, or an exception leaves [main] uncaught and [std::terminate]
    aborts the process ([ABORTED]; no value is returned and nothing is
    logged). *)
Inductive exit_code : Type := EXIT_SUCCESS | EXIT_FAILURE | ABORTED.

(** [std::expected<T, E>]: a value, or the error of a failed call. *)
Inductive expected (T E : Type) : Type :=
| value (t : T)
| unexpected (e : E).
Arguments value {T E} t.
Arguments unexpected {T E} e.

(** A call that may throw a [std::exception]: it returns, or throws an
    exception with the message [what()]. *)
Inductive outcome (T : Type) : Type :=
| returns (t : T)
| throws (what : string).
Arguments returns {T} t.
Arguments throws {T} what.

(** ** The data of the driver *)

(** [config::context_t], as [main] reads it. *)
Record config_context_t : Type := {
  process_name : string;
  module_name_cfg : string;
  vmp_sections : list string;
  iat_section_name : string;
  dump_path : string
}.

(** The module entry returned by [win_process_t::find_module]. *)
Record module_t : Type := {
  path : string;
  address : Z;
  size : Z
}.

(** [portable_executable::machine_id_t]: the two ids [main] names, and every
    other value of the field. *)
Inductive machine_id_t : Type :=
| amd64
| i386
| machine_other (raw : Z).

Record file_header_t : Type := { machine : machine_id_t }.
Record nt_headers_t : Type := { file_header : file_header_t }.

Record section_header_t : Type := {
  virtual_address : Z;
  virtual_size : Z
}.

(** One entry of [image_t::exports()]: [main] binds it as
    [[export_name, export_va, _]]. *)
Record export_t : Type := {
  export_name : string;
  export_va : Z;
  export_ordinal : Z
}.

(** [portable_executable::image_t], through the three accessors [main]
    uses. *)
Record image_t : Type := {
  nt_headers : nt_headers_t;
  find_section : string -> option section_header_t;
  exports : list export_t
}.

(** One entry of [win_process_t::modules_local_mapped()]: [main] binds it as
    [[pe, remote_image_base, module_name]] and reads [pe->image()]. *)
Record mapped_module_t : Type := {
  pe : image_t;
  remote_image_base : Z;
  module_name : string
}.

(** One element of [vmp::context->imports]. [main] reads [import_address];
    the specification calls the other field [call_site_va]. *)
Record import_t : Type := {
  call_site_va : Z;
  import_address : Z
}.

(** [vmp::iat_t] is declared in [vmprotect/vmp_iat.hpp], which is not among
    the sources. The driver only default-constructs it, calls [add_import] on
    it and hands it to [reconstruct]: the model is the sequence of
    [add_import] calls made so far, as (module name, export name) pairs. *)
Definition iat_t : Type := list (string * string).

Definition add_import (iat : iat_t) (module_name export_name : string) : iat_t :=
  iat ++ [(module_name, export_name)].

(** ** Arithmetic on [std::uintptr_t] *)

Section Driver.

(** The width of [std::uintptr_t] in the build of the tool. *)
Variable ptr_bits : Z.

Definition uintptr_wrap (z : Z) : Z := z mod 2 ^ ptr_bits.
Definition uintptr_add (a b : Z) : Z := uintptr_wrap (a + b).
Definition uintptr_sub (a b : Z) : Z := uintptr_wrap (a - b).

(** ** The services the driver calls *)

(** What each service answers during the run. The bodies of these functions
    are outside the driver; [main] only sees their results. Every [vmp::]
    function and method may throw, inside a [try] block of [main] or not;
    [add_import_call] says whether the call [iat.add_import(module_name,
    export_name)] returns or throws. *)
Record world : Type := {
  arg_parser_parse : list string -> expected string string;
  parse_toml : string -> outcome config_context_t;
  find_process_id : string -> expected Z string;
  attach : Z -> bool;
  find_module : string -> expected module_t string;
  file_load : string -> option image_t;
  construct_context : bool -> outcome unit;
  compute_sections : list string -> Z -> image_t -> outcome unit;
  read : Z -> Z -> option (list byte);
  scan_import_calls : Z -> list byte -> outcome (list Z);
  map_sections : list (Z * list byte) -> outcome unit;
  process_import_calls : list Z -> Z -> outcome (list import_t);
  modules_local_mapped : expected (list mapped_module_t) string;
  add_import_call : string -> string -> outcome unit;
  initialize_memory_pe : Z -> Z -> outcome unit;
  reconstruct : iat_t -> string -> outcome unit;
  dump_to_fs : string -> outcome unit
}.

(** An argument of a formatted log line. *)
Inductive fmt_arg : Type :=
| arg_int (z : Z)
| arg_str (s : string).

(** What a run does, in order: the log lines and the calls into the
    services. A call is recorded when it is made, whatever it answers. *)
Inductive event : Type :=
| ev_error (fmt : string) (args : list fmt_arg)
| ev_info (msg : string)
| ev_attach (pid : Z)
| ev_file_load (path : string)
| ev_construct_context (is_x64 : bool)
| ev_compute_sections (names : list string) (base : Z) (image : image_t)
| ev_read (address size : Z)
| ev_scan_import_calls (address : Z) (buffer : list byte)
| ev_map_sections (sections : list (Z * list byte))
| ev_process_import_calls (import_calls : list Z) (base : Z)
| ev_modules_local_mapped
| ev_add_import (module_name export_name : string)
| ev_initialize_memory_pe (image_base image_size : Z)
| ev_reconstruct (iat : iat_t) (section_name : string)
| ev_dump_to_fs (path : string).

(** ** A monad for [main]: a log, and an early [return] *)

Definition M (A : Type) : Type := list event * (exit_code + A).

Definition ret {A : Type} (a : A) : M A := ([], inr a).

Definition bind {A B : Type} (m : M A) (f : A -> M B) : M B :=
  match m with
  | (t, inl c) => (t, inl c)
  | (t, inr a) => let (t', r) := f a in (t ++ t', r)
  end.

Definition emit (e : event) : M unit := ([e], inr tt).

(** [return c;] in [main]. *)
Definition exit {A : Type} (c : exit_code) : M A := ([], inl c).

Notation "x <- m ;; k" := (bind m (fun x => k))
  (at level 61, m at next level, right associativity).
Notation "m ;;; k" := (bind m (fun _ => k))
  (at level 61, right associativity).

(** [spdlog::error(...); return EXIT_FAILURE;] *)
Definition fail {A : Type} (fmt : string) (args : list fmt_arg) : M A :=
  emit (ev_error fmt args) ;;; exit EXIT_FAILURE.

(** [if (!x) { spdlog::error(x.error()); return EXIT_FAILURE; }] *)
Definition or_fail {A : Type} (x : expected A string) : M A :=
  match x with
  | value a => ret a
  | unexpected e => fail e []
  end.

(** A call inside [try { ... } catch (std::exception& error)
    { spdlog::error(error.what()); return EXIT_FAILURE; }]. *)
Definition try_catch {A : Type} (x : outcome A) : M A :=
  match x with
  | returns a => ret a
  | throws what => fail what []
  end.

(** A call in no [try] block: an exception it throws leaves [main], and
    [std::terminate] ends the process. *)
Definition uncaught {A : Type} (x : outcome A) : M A :=
  match x with
  | returns a => ret a
  | throws _ => ([], inl ABORTED)
  end.

Definition emit_all (es : list event) : M unit := (es, inr tt).

(** One [add_import] call per entry the loop adds to the table. *)
Definition add_import_events (iat : iat_t) : list event :=
  map (fun p => ev_add_import (fst p) (snd p)) iat.

(** The status and the log of a finished run. *)
Definition run (m : M exit_code) : list event * exit_code :=
  match m with
  | (t, inl c) => (t, c)
  | (t, inr c) => (t, c)
  end.

(** ** The IAT rebuild loop (main.cpp, lines 192-223) *)

(** The loop over the exports of one mapped module. [found] is the flag
    declared in the body of the outer loop; the pair is the state after the
    loop. *)
Fixpoint exports_loop (possible_import_va : Z) (module_name : string)
    (es : list export_t) (st : bool * iat_t) : bool * iat_t :=
  match es with
  | [] => st
  | e :: es' =>
      let st1 :=
        if possible_import_va =? export_va e
        then (true, add_import (snd st) module_name (export_name e))
        else st in
      if fst st1 then st1 else exports_loop possible_import_va module_name es' st1
  end.

(** The loop over the mapped modules, for one import. *)
Fixpoint modules_loop (import : import_t) (ms : list mapped_module_t)
    (st : bool * iat_t) : bool * iat_t :=
  match ms with
  | [] => st
  | m :: ms' =>
      let possible_import_va :=
        uintptr_sub (import_address import) (remote_image_base m) in
      let st1 := exports_loop possible_import_va (module_name m) (exports (pe m)) st in
      if fst st1 then st1 else modules_loop import ms' st1
  end.

(** The body of the outer loop: [bool found = false;] then the module
    loop. *)
Definition import_body (ms : list mapped_module_t) (iat : iat_t)
    (import : import_t) : iat_t :=
  snd (modules_loop import ms (false, iat)).

(** [vmp::iat_t iat; for (const auto& import : vmp::context->imports) ...] *)
Definition iat_rebuild (imports : list import_t) (ms : list mapped_module_t) : iat_t :=
  fold_left (import_body ms) imports [].

(** ** Reading the sections (main.cpp, lines 118-167) *)

(** One remote read of a section: the buffer has [virtual_size] bytes and is
    read from [module->address + virtual_address]. *)
Definition read_section (w : world) (m : module_t) (h : section_header_t)
    : M (Z * list byte) :=
  let address := uintptr_add (address m) (virtual_address h) in
  emit (ev_read address (virtual_size h)) ;;;
  match read w address (virtual_size h) with
  | None => fail "failed to read from remote process" []
  | Some temp_buffer => ret (address, temp_buffer)
  end.

(** The loop over [config_ctx.vmp_sections]; [acc] is [map_sections]. *)
Fixpoint vmp_sections_loop (w : world) (m : module_t) (image : image_t)
    (names : list string) (acc : list (Z * list byte)) : M (list (Z * list byte)) :=
  match names with
  | [] => ret acc
  | vmp_section :: names' =>
      match find_section image vmp_section with
      | None => fail "failed to find section {}" [arg_str vmp_section]
      | Some section_header =>
          s <- read_section w m section_header ;;
          vmp_sections_loop w m image names' (acc ++ [s])
      end
  end.

(** The [add_import] calls of the rebuild loop, as the run makes them.
    Lines 192 to 223 are in no [try] block, and what the loop does next
    never depends on what [add_import] did: the calls are those of
    [iat_rebuild], one after the other, up to the first one that throws. *)
Fixpoint add_imports (w : world) (calls : iat_t) : M unit :=
  match calls with
  | [] => ret tt
  | p :: calls' =>
      emit (ev_add_import (fst p) (snd p)) ;;;
      uncaught (add_import_call w (fst p) (snd p)) ;;;
      add_imports w calls'
  end.

(** ** [main] *)

(** Lines 101 to 243: the pipeline, once the architecture is known. *)
Definition main_pipeline (w : world) (config_ctx : config_context_t)
    (module : module_t) (image : image_t) (is_x64 : bool) : M exit_code :=
  emit (ev_construct_context is_x64) ;;;
  try_catch (construct_context w is_x64) ;;;
  emit (ev_compute_sections (vmp_sections config_ctx) (address module) image) ;;;
  try_catch (compute_sections w (vmp_sections config_ctx) (address module) image) ;;;
  text <- match find_section image ".text" with
          | None => fail "failed to find section .text" []
          | Some text_section => read_section w module text_section
          end ;;
  emit (ev_scan_import_calls (fst text) (snd text)) ;;;
  import_calls <- uncaught (scan_import_calls w (fst text) (snd text)) ;;
  map_sections_v <- vmp_sections_loop w module image (vmp_sections config_ctx) [text] ;;
  emit (ev_map_sections map_sections_v) ;;;
  try_catch (map_sections w map_sections_v) ;;;
  emit (ev_process_import_calls import_calls (address module)) ;;;
  imports <- try_catch (process_import_calls w import_calls (address module)) ;;
  emit ev_modules_local_mapped ;;;
  mapped_modules <- or_fail (modules_local_mapped w) ;;
  emit (ev_info "starting iat rebuild...") ;;;
  let iat := iat_rebuild imports mapped_modules in
  add_imports w iat ;;;
  emit (ev_initialize_memory_pe (address module) (size module)) ;;;
  try_catch (initialize_memory_pe w (address module) (size module)) ;;;
  emit (ev_reconstruct iat (iat_section_name config_ctx)) ;;;
  try_catch (reconstruct w iat (iat_section_name config_ctx)) ;;;
  emit (ev_dump_to_fs (dump_path config_ctx)) ;;;
  try_catch (dump_to_fs w (dump_path config_ctx)) ;;;
  exit EXIT_SUCCESS.

(** Lines 22 to 99: the arguments, the process, the module and the
    architecture; then the pipeline. *)
Definition main_m (w : world) (argv : list string) : M exit_code :=
  arg_parser_ctx <- or_fail (arg_parser_parse w argv) ;;
  config_ctx <- try_catch (parse_toml w arg_parser_ctx) ;;
  process_id <- or_fail (find_process_id w (process_name config_ctx)) ;;
  emit (ev_attach process_id) ;;;
  (if attach w process_id then ret tt
   else fail "failed to attach to process id {}" [arg_int process_id]) ;;;
  module <- or_fail (find_module w (module_name_cfg config_ctx)) ;;
  emit (ev_file_load (path module)) ;;;
  image <- match file_load w (path module) with
           | Some image => ret image
           | None => fail "failed to load file from path {}" [arg_str (path module)]
           end ;;
  is_x64 <- match machine (file_header (nt_headers image)) with
            | amd64 => ret true
            | i386 => ret false
            | machine_other _ =>
                fail "invalid machine id. this software only supports x86 and x86_64 portable executables!" []
            end ;;
  main_pipeline w config_ctx module image is_x64.

Definition main (w : world) (argv : list string) : list event * exit_code :=
  run (main_m w argv).

End Driver.

(** ** Reading a run *)

(** The import [imp] matches the export [e] of the mapped module [m]: the
    comparison of line 205. *)
Definition import_matches (ptr_bits : Z) (imp : import_t) (m : mapped_module_t)
    (e : export_t) : Prop :=
  uintptr_sub ptr_bits (import_address imp) (remote_image_base m) = export_va e.

(** No export of any mapped module matches the import. *)
Definition unresolved (ptr_bits : Z) (imp : import_t) (ms : list mapped_module_t) : Prop :=
  forall m e, In m ms -> In e (exports (pe m)) -> ~ import_matches ptr_bits imp m e.

(** The call recorded by [e] failed: the service answered [false], nothing,
    an error, or threw. *)
Definition failed (w : world) (e : event) : bool :=
  match e with
  | ev_attach pid => negb (attach w pid)
  | ev_file_load p => match file_load w p with Some _ => false | None => true end
  | ev_construct_context b =>
      match construct_context w b with returns _ => false | throws _ => true end
  | ev_compute_sections names base img =>
      match compute_sections w names base img with returns _ => false | throws _ => true end
  | ev_read a s => match read w a s with Some _ => false | None => true end
  | ev_map_sections l =>
      match map_sections w l with returns _ => false | throws _ => true end
  | ev_process_import_calls c b =>
      match process_import_calls w c b with returns _ => false | throws _ => true end
  | ev_modules_local_mapped =>
      match modules_local_mapped w with value _ => false | unexpected _ => true end
  | ev_initialize_memory_pe b s =>
      match initialize_memory_pe w b s with returns _ => false | throws _ => true end
  | ev_reconstruct iat n =>
      match reconstruct w iat n with returns _ => false | throws _ => true end
  | ev_dump_to_fs p =>
      match dump_to_fs w p with returns _ => false | throws _ => true end
  | ev_scan_import_calls a b =>
      match scan_import_calls w a b with returns _ => false | throws _ => true end
  | ev_add_import mn en =>
      match add_import_call w mn en with returns _ => false | throws _ => true end
  | ev_error _ _ | ev_info _ => false
  end.

Definition is_dump (e : event) : bool :=
  match e with ev_dump_to_fs _ => true | _ => false end.

(** The call recorded by [e] went well, and is not the serialization. *)
Definition passed (w : world) (e : event) : bool :=
  negb (failed w e) && negb (is_dump e).

Definition is_error (e : event) : bool :=
  match e with ev_error _ _ => true | _ => false end.

(** The calls into the pipeline ([vmp::] functions and methods). *)
Definition is_stage_call (e : event) : bool :=
  match e with
  | ev_construct_context _ | ev_compute_sections _ _ _ | ev_scan_import_calls _ _
  | ev_map_sections _ | ev_process_import_calls _ _ | ev_add_import _ _
  | ev_initialize_memory_pe _ _ | ev_reconstruct _ _ | ev_dump_to_fs _ => true
  | _ => false
  end.

Definition stage_calls (tr : list event) : list event := filter is_stage_call tr.







(** What a run that reaches the serialization looks like: it is called
    last but for an error line, every earlier call went well, and the calls
    into the pipeline are the ones listed. *)
Definition reaches_dump (ptr_bits : Z) (w : world) (argv : list string)
  (tr : list event) (code : exit_code) : Prop :=
  exists actx cfg pid m img is_x64 text_section text rest calls imports mods pre post,
    arg_parser_parse w argv = value actx
    /\ parse_toml w actx = returns cfg
    /\ find_process_id w (process_name cfg) = value pid
    /\ attach w pid = true
    /\ find_module w (module_name_cfg cfg) = value m
    /\ file_load w (path m) = Some img
    /\ find_section img ".text" = Some text_section
    /\ fst text = uintptr_add ptr_bits (address m) (virtual_address text_section)
    /\ read w (fst text) (virtual_size text_section) = Some (snd text)
    /\ scan_import_calls w (fst text) (snd text) = returns calls
    /\ process_import_calls w calls (address m) = returns imports
    /\ modules_local_mapped w = value mods
    /\ tr = pre ++ ev_dump_to_fs (dump_path cfg) :: post
    /\ forallb (passed w) pre = true
    /\ In (ev_attach pid) pre
    /\ In (ev_read (fst text) (virtual_size text_section)) pre
    /\ In ev_modules_local_mapped pre
    /\ stage_calls pre
       = [ev_construct_context is_x64;
          ev_compute_sections (vmp_sections cfg) (address m) img;
          ev_scan_import_calls (fst text) (snd text);
          ev_map_sections (text :: rest);
          ev_process_import_calls calls (address m)]
         ++ add_import_events (iat_rebuild ptr_bits imports mods)
         ++ [ev_initialize_memory_pe (address m) (size m);
             ev_reconstruct (iat_rebuild ptr_bits imports mods) (iat_section_name cfg)]
    /\ ((dump_to_fs w (dump_path cfg) = returns tt /\ post = [] /\ code = EXIT_SUCCESS)
        \/ (exists what, dump_to_fs w (dump_path cfg) = throws what
                         /\ post = [ev_error what []] /\ code = EXIT_FAILURE)).

(** ** The pipeline stages, from their specification

    [vmp::construct_context], [vmp::utilities::scan_import_calls] and
    [vmp::process_import_calls] are called by [main] and defined in
    [vmprotect/vmp.hpp] and [vmprotect/vmp_utilities.hpp], which are not among
    the sources. *)

(** The error kinds of the specification's taxonomy. *)
Inductive error : Type :=
| ConfigurationError
| MissingSectionError (name : string)
| TraceOverflowError
| UnsupportedOpcodeError (opcode : Z)
| UnresolvedImportError (call_site : Z)
| SnapshotError
| IOError
| DuplicateSectionError
| SectionLimitError.

Module VmContext.

Record VMContext : Type := {
  is_64_bit : bool;
  imports : list import_t
}.

(** The process-wide context: absent until [construct] has run. *)
Definition state : Type := option VMContext.

(** Modelled from the spec: [vmp::construct_context], which is not among
    the sources. It creates the context once, from the architecture, with
    an empty import table, and fails with a ConfigurationError when it is
    invoked again; a failed call leaves the context as it was. The
    architecture is a boolean, so every value of it is supported. *)
Definition construct (is_64_bit : bool) (st : state) : state * (error + unit) :=
  match st with
  | None => (Some {| is_64_bit := is_64_bit; imports := [] |}, inr tt)
  | Some ctx => (Some ctx, inl ConfigurationError)
  end.

(** The results of a sequence of [construct] calls in one run. *)
Fixpoint construct_calls (archs : list bool) (st : state) : list (error + unit) :=
  match archs with
  | [] => []
  | a :: archs' =>
      let (st', r) := construct a st in r :: construct_calls archs' st'
  end.

End VmContext.

Module ImportResolver.

(** What one step of the trace does: it goes on in a new state, or it is
    the terminal transfer out of the virtual machine, to [target]. *)
Inductive step_result (vm_state : Type) : Type :=
| step_next (s : vm_state)
| step_transfer (target : Z).
Arguments step_next {vm_state} s.
Arguments step_transfer {vm_state} target.

Section Trace.

(** The state of the symbolic trace, and the opcode it is about to
    interpret, read from the mapped sections. *)
Variable vm_state : Type.
Variable fetch : vm_state -> Z.

(** The handler table: the handler of each opcode the tracer models. *)
Variable handler : Z -> option (vm_state -> step_result vm_state).

(** Modelled from the spec: the bounded symbolic trace of
    [vmp::process_import_calls], which is not among the sources. Each
    step interprets one opcode through the handler table; an opcode
    without a handler is an UnsupportedOpcodeError naming it; the trace
    ends at the terminal transfer, and is a TraceOverflowError when
    [budget] steps did not reach one. *)
Fixpoint trace (budget : nat) (s : vm_state) : error + Z :=
  match budget with
  | O => inl TraceOverflowError
  | S budget' =>
      match handler (fetch s) with
      | None => inl (UnsupportedOpcodeError (fetch s))
      | Some h =>
          match h s with
          | step_transfer target => inr target
          | step_next s' => trace budget' s'
          end
      end
  end.

(** [steps k s s']: [k] steps lead from [s] to [s'], none of them
    terminal, all of modelled opcodes. *)
Inductive steps : nat -> vm_state -> vm_state -> Prop :=
| steps_O : forall s, steps O s s
| steps_S : forall k s h s1 s2,
    handler (fetch s) = Some h -> h s = step_next s1 ->
    steps k s1 s2 -> steps (S k) s s2.

(** The state in which the trace of a call site starts, at its dispatch
    target, and the fixed step budget. *)
Variable entry : Z -> vm_state.
Variable step_budget : nat.

(** Modelled from the spec: [vmp::process_import_calls]. Each call site
    is traced in turn; a success appends its record to the context's
    import table, the first failure ends the whole call. *)
Fixpoint process_import_calls (call_sites : list Z) (imports : list import_t)
    : error + list import_t :=
  match call_sites with
  | [] => inr imports
  | c :: call_sites' =>
      match trace step_budget (entry c) with
      | inl e => inl e
      | inr target =>
          process_import_calls call_sites'
            (imports ++ [{| call_site_va := c; import_address := target |}])
      end
  end.

End Trace.

End ImportResolver.

Module ImportCallScanner.

(** A decoded instruction: its length in bytes, and the raw target when it
    is a call-type instruction. *)
Record insn : Type := {
  insn_length : positive;
  call_target : option Z
}.

Section Scan.

(** The instruction-length decoder: the instruction at [va], given the
    bytes from [va] on; nothing for an undecodable byte sequence. *)
Variable decode : Z -> list byte -> option insn.

(** The sections mapped so far, as (base address, bytes). *)
Variable mapped : list (Z * list byte).

Definition in_mapped_section (target : Z) : bool :=
  existsb (fun s => (fst s <=? target) && (target <? fst s + Z.of_nat (List.length (snd s))))
    mapped.

Definition is_import_call (i : insn) : bool :=
  match call_target i with
  | Some target => in_mapped_section target
  | None => false
  end.

(** Modelled from the spec: the linear scan of
    [vmp::utilities::scan_import_calls], which is not among the sources.
    At each position the decoder gives the instruction; a call whose raw
    target lies in a mapped section yields its address, and the scan goes
    on after the instruction; an undecodable byte is skipped. The
    specification gives addresses no width: they are integers here. *)
Fixpoint scan (fuel : nat) (va : Z) (bytes : list byte) : list Z :=
  match fuel with
  | O => []
  | S fuel' =>
      match bytes with
      | [] => []
      | _ :: _ =>
          match decode va bytes with
          | None => scan fuel' (va + 1) (skipn 1 bytes)
          | Some i =>
              let n := Pos.to_nat (insn_length i) in
              (if is_import_call i then [va] else [])
                ++ scan fuel' (va + Z.of_nat n) (skipn n bytes)
          end
      end
  end.

(** Every step consumes a byte at least, so the length of the buffer is
    fuel enough. *)
Definition scan_import_calls (address : Z) (buffer : list byte) : list Z :=
  scan (List.length buffer) address buffer.

(** The buffer holds a call into a mapped section at offset [off]. *)
Definition import_call_at (address : Z) (buffer : list byte) (off : nat) : Prop :=
  (off < List.length buffer)%nat /\
  exists i, decode (address + Z.of_nat off) (skipn off buffer) = Some i
            /\ is_import_call i = true.

End Scan.

(** A decoder of one call encoding, the near relative call of x86
    ([E8 rel32], five bytes, target [va + 5 + rel32]); every other byte is
    undecodable to it. *)
Definition le32 (b0 b1 b2 b3 : byte) : Z :=
  Z.of_N (Byte.to_N b0) + 256 * Z.of_N (Byte.to_N b1)
  + 65536 * Z.of_N (Byte.to_N b2) + 16777216 * Z.of_N (Byte.to_N b3).

Definition signed32 (z : Z) : Z := if z <? 2 ^ 31 then z else z - 2 ^ 32.

Definition decode_call_rel32 (va : Z) (bytes : list byte) : option insn :=
  match bytes with
  | xe8 :: b0 :: b1 :: b2 :: b3 :: _ =>
      Some {| insn_length := 5%positive;
              call_target := Some (va + 5 + signed32 (le32 b0 b1 b2 b3)) |}
  | _ => None
  end.

End ImportCallScanner.

(** Strictly increasing addresses. *)
Fixpoint strictly_increasing (l : list Z) : Prop :=
  match l with
  | [] => True
  | a :: l' => (forall b, In b l' -> a < b) /\ strictly_increasing l'
  end.

(** ** A run of the driver on a small process

    The scenario of the specification: one call site whose trace resolves to
    [0x7FFE0000], where the first mapped module exports [Sleep]; a second
    module exports the same address under another name; a second import
    record points at no export. *)
Module Demo.

Definition argv : list string := ["vmp-import-resolver"; "config.toml"].

Definition config_ctx : config_context_t := {|
  process_name := "target.exe";
  module_name_cfg := "target.exe";
  vmp_sections := [".vmp0"];
  iat_section_name := ".newiat";
  dump_path := "target.dump.exe"
|}.

Definition module : module_t := {|
  path := "C:/target.exe";
  address := 0x140000000;
  size := 0x5000
|}.

Definition image : image_t := {|
  nt_headers := {| file_header := {| machine := amd64 |} |};
  find_section := fun name =>
    if String.eqb name ".text"
    then Some {| virtual_address := 0x1000; virtual_size := 5 |}
    else if String.eqb name ".vmp0"
    then Some {| virtual_address := 0x3000; virtual_size := 4 |}
    else None;
  exports := []
|}.

Definition kernel32 : mapped_module_t := {|
  pe := {| nt_headers := {| file_header := {| machine := amd64 |} |};
           find_section := fun _ => None;
           exports := [ {| export_name := "Beep"; export_va := 0x40; export_ordinal := 1 |};
                        {| export_name := "Sleep"; export_va := 0; export_ordinal := 2 |};
                        {| export_name := "SleepAlias"; export_va := 0; export_ordinal := 3 |} ] |};
  remote_image_base := 0x7FFE0000;
  module_name := "kernel32.dll"
|}.

Definition kernelbase : mapped_module_t := {|
  pe := {| nt_headers := {| file_header := {| machine := amd64 |} |};
           find_section := fun _ => None;
           exports := [ {| export_name := "SleepForwarded"; export_va := 0x10000;
                           export_ordinal := 1 |} ] |};
  remote_image_base := 0x7FFD0000;
  module_name := "kernelbase.dll"
|}.

Definition mapped_modules : list mapped_module_t := [kernel32; kernelbase].

Definition resolved_import : import_t :=
  {| call_site_va := 0x140001000; import_address := 0x7FFE0000 |}.

Definition dangling_import : import_t :=
  {| call_site_va := 0x140001005; import_address := 0x12345 |}.

Definition imports : list import_t := [resolved_import; dangling_import].

Definition w : world := {|
  arg_parser_parse := fun _ => value "config.toml";
  parse_toml := fun _ => returns config_ctx;
  find_process_id := fun _ => value 4242;
  attach := fun _ => true;
  find_module := fun _ => value module;
  file_load := fun _ => Some image;
  construct_context := fun _ => returns tt;
  compute_sections := fun _ _ _ => returns tt;
  read := fun _ size => Some (repeat x00 (Z.to_nat size));
  scan_import_calls := fun address _ => returns [address];
  map_sections := fun _ => returns tt;
  process_import_calls := fun _ _ => returns imports;
  modules_local_mapped := value mapped_modules;
  add_import_call := fun _ _ => returns tt;
  initialize_memory_pe := fun _ _ => returns tt;
  reconstruct := fun _ _ => returns tt;
  dump_to_fs := fun _ => returns tt
|}.

(** The same process, seen through a file of another architecture. *)
Definition arm_image : image_t := {|
  nt_headers := {| file_header := {| machine := machine_other 0xAA64 |} |};
  find_section := find_section image;
  exports := []
|}.

Definition w_arm : world := {|
  arg_parser_parse := arg_parser_parse w;
  parse_toml := parse_toml w;
  find_process_id := find_process_id w;
  attach := attach w;
  find_module := find_module w;
  file_load := fun _ => Some arm_image;
  construct_context := construct_context w;
  compute_sections := compute_sections w;
  read := read w;
  scan_import_calls := scan_import_calls w;
  map_sections := map_sections w;
  process_import_calls := process_import_calls w;
  modules_local_mapped := modules_local_mapped w;
  add_import_call := add_import_call w;
  initialize_memory_pe := initialize_memory_pe w;
  reconstruct := reconstruct w;
  dump_to_fs := dump_to_fs w
|}.

(** The same process, with a remote read that fails. *)
Definition w_unreadable : world := {|
  arg_parser_parse := arg_parser_parse w;
  parse_toml := parse_toml w;
  find_process_id := find_process_id w;
  attach := attach w;
  find_module := find_module w;
  file_load := file_load w;
  construct_context := construct_context w;
  compute_sections := compute_sections w;
  read := fun address size => if address =? 0x140003000 then None else read w address size;
  scan_import_calls := scan_import_calls w;
  map_sections := map_sections w;
  process_import_calls := process_import_calls w;
  modules_local_mapped := modules_local_mapped w;
  add_import_call := add_import_call w;
  initialize_memory_pe := initialize_memory_pe w;
  reconstruct := reconstruct w;
  dump_to_fs := dump_to_fs w
|}.


Definition w_add_throws : world := {|
  arg_parser_parse := arg_parser_parse w;
  parse_toml := parse_toml w;
  find_process_id := find_process_id w;
  attach := attach w;
  find_module := find_module w;
  file_load := file_load w;
  construct_context := construct_context w;
  compute_sections := compute_sections w;
  read := read w;
  scan_import_calls := scan_import_calls w;
  map_sections := map_sections w;
  process_import_calls := process_import_calls w;
  modules_local_mapped := modules_local_mapped w;
  add_import_call := fun _ _ => throws "table full";
  initialize_memory_pe := initialize_memory_pe w;
  reconstruct := reconstruct w;
  dump_to_fs := dump_to_fs w
|}.

(** A virtual machine of three opcodes, for the trace: [1] steps to the
    next opcode, [2] loads the value that follows and leaves the machine
    for it, [3] jumps back to the start; the state is the rest of the
    bytecode. *)
Definition vm_fetch (s : list Z) : Z := hd 0 s.

Definition vm_handler (program : list Z) (op : Z)
    : option (list Z -> ImportResolver.step_result (list Z)) :=
  if op =? 1 then Some (fun s => ImportResolver.step_next (tl s))
  else if op =? 2 then Some (fun s => ImportResolver.step_transfer (hd 0 (tl s)))
  else if op =? 3 then Some (fun _ => ImportResolver.step_next program)
  else None.

End Demo.

(** ** More readings of the rebuild loop and of a run *)

(** Some export of some mapped module passes the test of line 205 for the
    import. *)
Definition has_match (ptr_bits : Z) (ms : list mapped_module_t) (imp : import_t) : bool :=
  existsb
    (fun m =>
       existsb
         (fun e => uintptr_sub ptr_bits (import_address imp) (remote_image_base m)
                   =? export_va e)
         (exports (pe m)))
    ms.

(** The first match of an import, as a search: the first module, in the
    order of the list, one of whose exports passes the test, and the first
    such export of that module. *)
Fixpoint first_match (ptr_bits : Z) (imp : import_t) (ms : list mapped_module_t)
    : option (string * string) :=
  match ms with
  | [] => None
  | m :: ms' =>
      match find (fun e => uintptr_sub ptr_bits (import_address imp) (remote_image_base m)
                           =? export_va e)
                 (exports (pe m)) with
      | Some e => Some (module_name m, export_name e)
      | None => first_match ptr_bits imp ms'
      end
  end.

(** The entries one import adds: its first match, if it has one. *)
Definition import_entries (ptr_bits : Z) (ms : list mapped_module_t) (imp : import_t)
    : iat_t :=
  match first_match ptr_bits imp ms with
  | Some p => [p]
  | None => []
  end.

(** The address a section is read at, [module->address + virtual_address],
    the read of a section, and the entry of [map_sections] for it. *)
Definition section_address (ptr_bits : Z) (m : module_t) (h : section_header_t) : Z :=
  uintptr_add ptr_bits (address m) (virtual_address h).

Definition read_event (ptr_bits : Z) (m : module_t) (h : section_header_t) : event :=
  ev_read (section_address ptr_bits m h) (virtual_size h).

Definition read_events (ptr_bits : Z) (m : module_t)
    (rs : list (section_header_t * list byte)) : list event :=
  map (fun r => read_event ptr_bits m (fst r)) rs.

Definition section_entries (ptr_bits : Z) (m : module_t)
    (rs : list (section_header_t * list byte)) : list (Z * list byte) :=
  map (fun r => (section_address ptr_bits m (fst r), snd r)) rs.

(** The section [name] is in the static image with the header [fst r], and
    the remote read of it answers the bytes [snd r]. *)
Definition section_ok (ptr_bits : Z) (w : world) (m : module_t) (img : image_t)
    (name : string) (r : section_header_t * list byte) : Prop :=
  find_section img name = Some (fst r)
  /\ read w (section_address ptr_bits m (fst r)) (virtual_size (fst r)) = Some (snd r).

(** The read of [n] bytes at [a] is the read of a section of the static
    image of the module the run found, [.text] or one the configuration
    lists, at its address and of its size. *)
Definition read_confined (ptr_bits : Z) (w : world) (argv : list string) (a n : Z) : Prop :=
  exists actx cfg m img name h,
    arg_parser_parse w argv = value actx
    /\ parse_toml w actx = returns cfg
    /\ find_module w (module_name_cfg cfg) = value m
    /\ file_load w (path m) = Some img
    /\ (name = ".text" \/ In name (vmp_sections cfg))
    /\ find_section img name = Some h
    /\ a = section_address ptr_bits m h
    /\ n = virtual_size h.

Definition is_read (e : event) : bool :=
  match e with ev_read _ _ => true | _ => false end.

Definition is_scan (e : event) : bool :=
  match e with ev_scan_import_calls _ _ => true | _ => false end.

(** The place of an event in the text of [main], by its line: a remote read
    is the read of [.text] (line 132) when the scanner has not been called
    yet, and a read of the loop over the configured sections (line 159)
    when it has. *)
Definition place_of (after_scan : bool) (e : event) : nat :=
  match e with
  | ev_attach _ => 1
  | ev_file_load _ => 2
  | ev_construct_context _ => 3
  | ev_compute_sections _ _ _ => 4
  | ev_read _ _ => if after_scan then 7 else 5
  | ev_scan_import_calls _ _ => 6
  | ev_map_sections _ => 8
  | ev_process_import_calls _ _ => 9
  | ev_modules_local_mapped => 10
  | ev_info _ => 11
  | ev_add_import _ _ => 12
  | ev_initialize_memory_pe _ _ => 13
  | ev_reconstruct _ _ => 14
  | ev_dump_to_fs _ => 15
  | ev_error _ _ => 16
  end.

(** The places of the events of a run, in order. *)
Fixpoint places (after_scan : bool) (tr : list event) : list nat :=
  match tr with
  | [] => []
  | e :: tr' => place_of after_scan e :: places (after_scan || is_scan e) tr'
  end.

(** The two places [main] has in a loop: the reads of the configured
    sections and the [add_import] calls. *)
Definition repeatable (k : nat) : bool := (k =? 7)%nat || (k =? 12)%nat.

(** From [prev] on, every place is later than the one before it, or the
    same when the place is in a loop. *)
Fixpoint ordered_places (prev : nat) (l : list nat) : bool :=
  match l with
  | [] => true
  | a :: l' => ((prev <? a)%nat || ((prev =? a)%nat && repeatable a)) && ordered_places a l'
  end.

(** The calls into the pipeline, by name. *)
Inductive pipeline_call : Type :=
| call_construct_context
| call_compute_sections
| call_scan_import_calls
| call_map_sections
| call_process_import_calls
| call_add_import
| call_initialize_memory_pe
| call_reconstruct
| call_dump_to_fs.

Definition call_of (e : event) : option pipeline_call :=
  match e with
  | ev_construct_context _ => Some call_construct_context
  | ev_compute_sections _ _ _ => Some call_compute_sections
  | ev_scan_import_calls _ _ => Some call_scan_import_calls
  | ev_map_sections _ => Some call_map_sections
  | ev_process_import_calls _ _ => Some call_process_import_calls
  | ev_add_import _ _ => Some call_add_import
  | ev_initialize_memory_pe _ _ => Some call_initialize_memory_pe
  | ev_reconstruct _ _ => Some call_reconstruct
  | ev_dump_to_fs _ => Some call_dump_to_fs
  | _ => None
  end.

(** The calls into the pipeline a run makes, in order. *)
Fixpoint pipeline_calls (tr : list event) : list pipeline_call :=
  match tr with
  | [] => []
  | e :: tr' =>
      match call_of e with
      | Some c => c :: pipeline_calls tr'
      | None => pipeline_calls tr'
      end
  end.

(** The calls [main] makes before the rebuild loop, and after it. *)
Definition calls_before_loop : list pipeline_call :=
  [call_construct_context; call_compute_sections; call_scan_import_calls;
   call_map_sections; call_process_import_calls].

Definition calls_after_loop : list pipeline_call :=
  [call_initialize_memory_pe; call_reconstruct; call_dump_to_fs].

(** The two calls [main] makes outside every [try] block, and how a run
    ends when the call recorded by [e] fails. *)
Definition uncaught_call (e : event) : bool :=
  match e with
  | ev_scan_import_calls _ _ | ev_add_import _ _ => true
  | _ => false
  end.

Definition ends_as (e : event) : exit_code :=
  if uncaught_call e then ABORTED else EXIT_FAILURE.

Definition exit_code_eqb (c1 c2 : exit_code) : bool :=
  match c1, c2 with
  | EXIT_SUCCESS, EXIT_SUCCESS | EXIT_FAILURE, EXIT_FAILURE | ABORTED, ABORTED => true
  | _, _ => false
  end.

(** The call recorded by [e] did not fail, or the run ended the way its
    failure ends a run. *)
Definition explains (w : world) (code : exit_code) (e : event) : bool :=
  implb (failed w e) (exit_code_eqb code (ends_as e)).

(** The run found the module [m] under the configured name, and the static
    image [img] in the file at its path. *)
Definition found_module (w : world) (argv : list string) (cfg : config_context_t)
    (m : module_t) (img : image_t) : Prop :=
  exists actx,
    arg_parser_parse w argv = value actx
    /\ parse_toml w actx = returns cfg
    /\ find_module w (module_name_cfg cfg) = value m
    /\ file_load w (path m) = Some img.

(** The run read the bytes [buf] of the section [.text], whose header is
    [ts]. *)
Definition text_read (ptr_bits : Z) (w : world) (argv : list string)
    (cfg : config_context_t) (m : module_t) (img : image_t)
    (ts : section_header_t) (buf : list byte) : Prop :=
  found_module w argv cfg m img
  /\ find_section img ".text" = Some ts
  /\ read w (section_address ptr_bits m ts) (virtual_size ts) = Some buf.

(** The resolver answered [imports] for the call sites the scanner found in
    [.text]. *)
Definition imports_resolved (ptr_bits : Z) (w : world) (argv : list string)
    (cfg : config_context_t) (m : module_t) (imports : list import_t) : Prop :=
  exists img ts buf calls,
    text_read ptr_bits w argv cfg m img ts buf
    /\ scan_import_calls w (section_address ptr_bits m ts) buf = returns calls
    /\ process_import_calls w calls (address m) = returns imports.

(** Where the arguments of a call come from: the answers of the calls
    before it. *)
Definition call_justified (ptr_bits : Z) (w : world) (argv : list string) (e : event)
    : Prop :=
  match e with
  | ev_attach pid =>
      exists actx cfg, arg_parser_parse w argv = value actx
                       /\ parse_toml w actx = returns cfg
                       /\ find_process_id w (process_name cfg) = value pid
  | ev_file_load p =>
      exists actx cfg m, arg_parser_parse w argv = value actx
                         /\ parse_toml w actx = returns cfg
                         /\ find_module w (module_name_cfg cfg) = value m
                         /\ p = path m
  | ev_construct_context b =>
      exists cfg m img, found_module w argv cfg m img
                        /\ machine (file_header (nt_headers img))
                           = (if b then amd64 else i386)
  | ev_compute_sections names base image =>
      exists cfg m, found_module w argv cfg m image
                    /\ names = vmp_sections cfg /\ base = address m
  | ev_scan_import_calls a buf =>
      exists cfg m img ts,
        text_read ptr_bits w argv cfg m img ts buf
        /\ a = section_address ptr_bits m ts
  | ev_map_sections l =>
      exists cfg m img ts buf rs,
        text_read ptr_bits w argv cfg m img ts buf
        /\ Forall2 (section_ok ptr_bits w m img) (vmp_sections cfg) rs
        /\ l = (section_address ptr_bits m ts, buf) :: section_entries ptr_bits m rs
  | ev_process_import_calls calls base =>
      exists cfg m img ts buf,
        text_read ptr_bits w argv cfg m img ts buf
        /\ scan_import_calls w (section_address ptr_bits m ts) buf = returns calls
        /\ base = address m
  | ev_add_import mn en =>
      exists cfg m imports mods,
        imports_resolved ptr_bits w argv cfg m imports
        /\ modules_local_mapped w = value mods
        /\ In (mn, en) (iat_rebuild ptr_bits imports mods)
  | ev_initialize_memory_pe base sz =>
      exists cfg m img, found_module w argv cfg m img
                        /\ base = address m /\ sz = size m
  | ev_reconstruct iat name =>
      exists cfg m imports mods,
        imports_resolved ptr_bits w argv cfg m imports
        /\ modules_local_mapped w = value mods
        /\ iat = iat_rebuild ptr_bits imports mods
        /\ name = iat_section_name cfg
  | ev_dump_to_fs p =>
      exists cfg m img, found_module w argv cfg m img /\ p = dump_path cfg
  | ev_info msg => msg = "starting iat rebuild..."
  | ev_read _ _ | ev_modules_local_mapped | ev_error _ _ => True
  end.

(** * Theorems *)

(** ** The IAT rebuild loop *)

Section IatLoop.

Variable ptr_bits : Z.

Lemma exports_loop_none (va : Z) (mn : string) (es : list export_t) (iat : iat_t) :
  (forall e, In e es -> va <> export_va e) ->
  exports_loop va mn es (false, iat) = (false, iat).
Proof.
  induction es as [|e es IH]; intros Hno; simpl; [reflexivity|].
  destruct (Z.eqb_spec va (export_va e)) as [Heq|Hne].
  - exfalso. apply (Hno e); [left; reflexivity | exact Heq].
  - simpl. apply IH. intros e' He'. apply Hno. right. exact He'.
Qed.

Lemma exports_loop_first (va : Z) (mn : string) (es1 : list export_t) (e : export_t)
    (es2 : list export_t) (iat : iat_t) :
  (forall e', In e' es1 -> va <> export_va e') ->
  va = export_va e ->
  exports_loop va mn (es1 ++ e :: es2) (false, iat)
  = (true, add_import iat mn (export_name e)).
Proof.
  induction es1 as [|e1 es1 IH]; intros Hno Heq; simpl.
  - rewrite Heq, Z.eqb_refl. reflexivity.
  - destruct (Z.eqb_spec va (export_va e1)) as [Heq1|Hne1].
    + exfalso. apply (Hno e1); [left; reflexivity | exact Heq1].
    + simpl. apply IH; [|exact Heq]. intros e' He'. apply Hno. right. exact He'.
Qed.

(** The exports of a module either hold no match, or split at the first
    one. *)
Lemma first_export_split (va : Z) (es : list export_t) :
  (forall e, In e es -> va <> export_va e) \/
  (exists es1 e es2, es = es1 ++ e :: es2
                     /\ (forall e', In e' es1 -> va <> export_va e')
                     /\ va = export_va e).
Proof.
  induction es as [|e es IH].
  - left. intros e [].
  - destruct (Z.eq_dec va (export_va e)) as [Heq|Hne].
    + right. exists [], e, es. repeat split; [intros e' []| exact Heq].
    + destruct IH as [Hno|(es1 & e0 & es2 & -> & Hno & Heq)].
      * left. intros e' [<-|He']; [exact Hne | apply Hno; exact He'].
      * right. exists (e :: es1), e0, es2. repeat split; [|exact Heq].
        intros e' [<-|He']; [exact Hne | apply Hno; exact He'].
Qed.

Lemma modules_loop_none (imp : import_t) (ms : list mapped_module_t) (iat : iat_t) :
  unresolved ptr_bits imp ms ->
  modules_loop ptr_bits imp ms (false, iat) = (false, iat).
Proof.
  induction ms as [|m ms IH]; intros Hno; simpl; [reflexivity|].
  rewrite exports_loop_none.
  - simpl. apply IH. intros m' e' Hm'. apply Hno. right. exact Hm'.
  - intros e He. apply (Hno m e); [left; reflexivity | exact He].
Qed.

Lemma modules_loop_first (imp : import_t) (ms1 : list mapped_module_t)
    (m : mapped_module_t) (ms2 : list mapped_module_t)
    (es1 : list export_t) (e : export_t) (es2 : list export_t) (iat : iat_t) :
  exports (pe m) = es1 ++ e :: es2 ->
  unresolved ptr_bits imp ms1 ->
  (forall e', In e' es1 -> ~ import_matches ptr_bits imp m e') ->
  import_matches ptr_bits imp m e ->
  modules_loop ptr_bits imp (ms1 ++ m :: ms2) (false, iat)
  = (true, add_import iat (module_name m) (export_name e)).
Proof.
  intros Hes Hms1 Hes1 He.
  induction ms1 as [|m1 ms1 IH]; simpl.
  - rewrite Hes, exports_loop_first; [reflexivity| exact Hes1 | exact He].
  - rewrite exports_loop_none.
    + simpl. apply IH. intros m' e' Hm'. apply Hms1. right. exact Hm'.
    + intros e' He'. apply (Hms1 m1 e'); [left; reflexivity | exact He'].
Qed.

(** The modules either hold no match for the import, or split at the first
    module that has one, whose exports split at its first match. *)
Lemma first_module_split (imp : import_t) (ms : list mapped_module_t) :
  unresolved ptr_bits imp ms \/
  (exists ms1 m ms2 es1 e es2,
      ms = ms1 ++ m :: ms2 /\ exports (pe m) = es1 ++ e :: es2
      /\ unresolved ptr_bits imp ms1
      /\ (forall e', In e' es1 -> ~ import_matches ptr_bits imp m e')
      /\ import_matches ptr_bits imp m e).
Proof.
  induction ms as [|m ms IH].
  - left. intros m e [].
  - destruct (first_export_split
                (uintptr_sub ptr_bits (import_address imp) (remote_image_base m))
                (exports (pe m)))
      as [Hno|(es1 & e & es2 & Hes & Hno & Heq)].
    + destruct IH as [Hms|(ms1 & m0 & ms2 & es1 & e & es2 & -> & Hes & Hms1 & Hes1 & He)].
      * left. intros m' e' [<-|Hm'] He'; [apply Hno; exact He' | apply Hms; assumption].
      * right. exists (m :: ms1), m0, ms2, es1, e, es2.
        repeat split; try assumption.
        intros m' e' [<-|Hm'] He'; [apply Hno; exact He' | apply Hms1; assumption].
    + right. exists [], m, ms, es1, e, es2.
      repeat split; try assumption. intros m' e' [].
Qed.

Lemma import_body_unresolved (imp : import_t) (ms : list mapped_module_t) (iat : iat_t) :
  unresolved ptr_bits imp ms -> import_body ptr_bits ms iat imp = iat.
Proof.
  intros Hno. unfold import_body. rewrite modules_loop_none by exact Hno. reflexivity.
Qed.

(** C3. For an import record and a list of mapped modules, when [m] is the
    first module in enumeration order with an export whose address equals
    [target_va - base] and [e] is its first such export, the loop adds
    exactly the pair (name of [m], name of [e]); the modules after [m] and
    the exports after [e] are arbitrary, so a later module or export with
    the same address never wins. *)
Theorem import_body_first_match (imp : import_t) (ms1 : list mapped_module_t)
    (m : mapped_module_t) (ms2 : list mapped_module_t)
    (es1 : list export_t) (e : export_t) (es2 : list export_t) (iat : iat_t) :
  exports (pe m) = es1 ++ e :: es2 ->
  unresolved ptr_bits imp ms1 ->
  (forall e', In e' es1 -> ~ import_matches ptr_bits imp m e') ->
  import_matches ptr_bits imp m e ->
  import_body ptr_bits (ms1 ++ m :: ms2) iat imp
  = iat ++ [(module_name m, export_name e)].
Proof.
  intros Hes Hms1 Hes1 He. unfold import_body.
  rewrite (modules_loop_first imp ms1 m ms2 es1 e es2 iat Hes Hms1 Hes1 He).
  reflexivity.
Qed.

(** Whatever the modules are, the body of the loop adds nothing, or the
    pair of the first match. *)
Lemma import_body_cases (imp : import_t) (ms : list mapped_module_t) (iat : iat_t) :
  (unresolved ptr_bits imp ms /\ import_body ptr_bits ms iat imp = iat) \/
  (exists ms1 m ms2 es1 e es2,
      ms = ms1 ++ m :: ms2 /\ exports (pe m) = es1 ++ e :: es2
      /\ unresolved ptr_bits imp ms1
      /\ (forall e', In e' es1 -> ~ import_matches ptr_bits imp m e')
      /\ import_matches ptr_bits imp m e
      /\ import_body ptr_bits ms iat imp = iat ++ [(module_name m, export_name e)]).
Proof.
  destruct (first_module_split imp ms)
    as [Hno|(ms1 & m & ms2 & es1 & e & es2 & -> & Hes & Hms1 & Hes1 & He)].
  - left. split; [exact Hno | apply import_body_unresolved; exact Hno].
  - right. exists ms1, m, ms2, es1, e, es2. repeat split; try assumption.
    unfold import_body.
    rewrite (modules_loop_first imp ms1 m ms2 es1 e es2 iat Hes Hms1 Hes1 He).
    reflexivity.
Qed.

(** C1, as the code has it. A record whose target matches no export of any
    mapped module adds no entry: the rebuilt table is the one the loop
    builds from the other records, and the loop has no failure. *)
Theorem iat_rebuild_skips_unresolved (imports1 : list import_t) (imp : import_t)
    (imports2 : list import_t) (ms : list mapped_module_t) :
  unresolved ptr_bits imp ms ->
  iat_rebuild ptr_bits (imports1 ++ imp :: imports2) ms
  = iat_rebuild ptr_bits (imports1 ++ imports2) ms.
Proof.
  intros Hno. unfold iat_rebuild.
  rewrite !fold_left_app. simpl.
  rewrite import_body_unresolved by exact Hno. reflexivity.
Qed.

End IatLoop.

(** ** The VM context *)

(** C8. Whatever the architecture, [construct] succeeds on its first call in
    a run and creates the context for that architecture; every later call,
    with any architecture, fails with a ConfigurationError and leaves the
    context as the first call made it. *)
Theorem construct_once_then_fails (a : bool) (later : list bool) :
  exists ctx,
    VmContext.construct a None = (Some ctx, inr tt)
    /\ VmContext.is_64_bit ctx = a
    /\ (forall b, VmContext.construct b (Some ctx) = (Some ctx, inl ConfigurationError))
    /\ VmContext.construct_calls (a :: later) None
       = inr tt :: map (fun _ => inl ConfigurationError) later.
Proof.
  exists {| VmContext.is_64_bit := a; VmContext.imports := [] |}.
  repeat split.
  simpl. f_equal.
  generalize {| VmContext.is_64_bit := a; VmContext.imports := [] |} as ctx.
  induction later as [|b later IH]; intros ctx; simpl; [reflexivity|].
  f_equal. apply IH.
Qed.

(** ** The bounded trace *)

Section TraceTheorems.

Import ImportResolver.

Variable vm_state : Type.
Variable fetch : vm_state -> Z.
Variable handler : Z -> option (vm_state -> step_result vm_state).

(** A trace fails with one of two errors only, and the opcode an
  UnsupportedOpcodeError names has no handler. *)
Lemma trace_error_kinds (budget : nat) (s : vm_state) (e : error) :
  trace vm_state fetch handler budget s = inl e ->
  e = TraceOverflowError
  \/ exists op, e = UnsupportedOpcodeError op /\ handler op = None.
Proof.
  revert s. induction budget as [|budget IH]; intros s; simpl.
  - intros [= <-]. left. reflexivity.
  - destruct (handler (fetch s)) as [h|] eqn:Hh.
    + destruct (h s) as [s1|target]; [apply IH | discriminate].
    + intros [= <-]. right. exists (fetch s). split; [reflexivity | exact Hh].
Qed.

Variable entry : Z -> vm_state.
Variable step_budget : nat.

(** C5. The trace of every call site ends, in one of three ways: with the
  target of a terminal transfer reached in fewer steps than the budget;
  with a TraceOverflowError, after as many steps as the budget, none of
  them terminal; or with an UnsupportedOpcodeError, which names the
  opcode the trace was about to interpret and for which the handler
  table has no entry. *)
Theorem trace_terminates (call_site : Z) :
  match trace vm_state fetch handler step_budget (entry call_site) with
  | inr target =>
      exists k s' h, (k < step_budget)%nat
                     /\ steps vm_state fetch handler k (entry call_site) s'
                     /\ handler (fetch s') = Some h /\ h s' = step_transfer target
  | inl TraceOverflowError =>
      exists s', steps vm_state fetch handler step_budget (entry call_site) s'
  | inl (UnsupportedOpcodeError op) =>
      exists k s', (k < step_budget)%nat
                   /\ steps vm_state fetch handler k (entry call_site) s'
                   /\ fetch s' = op /\ handler op = None
  | inl _ => False
  end.
Proof.
  generalize (entry call_site) as s. generalize step_budget as budget.
  induction budget as [|budget IH]; intros s; simpl.
  - exists s. apply steps_O.
  - destruct (handler (fetch s)) as [h|] eqn:Hh.
    + destruct (h s) as [s1|target] eqn:Hs.
      * specialize (IH s1).
        destruct (trace vm_state fetch handler budget s1) as [[]|target].
        all: try exact IH.
        -- destruct IH as [s' Hsteps]. exists s'.
           eapply steps_S; eassumption.
        -- destruct IH as (k & s' & Hk & Hsteps & Hop & Hnone).
           exists (S k), s'. repeat split; try assumption; [lia|].
           eapply steps_S; eassumption.
        -- destruct IH as (k & s' & h' & Hk & Hsteps & Hh' & Ht).
           exists (S k), s', h'. repeat split; try assumption; [lia|].
           eapply steps_S; eassumption.
      * exists O, s, h. repeat split; try assumption; [lia | apply steps_O].
    + exists O, s. repeat split; try assumption; [lia | apply steps_O].
Qed.

(** The whole call: the records of all the call sites, in their order,
  behind the ones the context held; or the error of the first trace that
  fails, which is one of the two errors of a trace. *)
Lemma process_import_calls_outcome (call_sites : list Z) (imports : list import_t) :
  match process_import_calls vm_state fetch handler entry step_budget call_sites imports with
  | inr imports' =>
      exists targets,
        List.length targets = List.length call_sites
        /\ Forall2 (fun c t => trace vm_state fetch handler step_budget (entry c) = inr t)
             call_sites targets
        /\ imports' = imports
                      ++ map (fun ct => {| call_site_va := fst ct; import_address := snd ct |})
                           (combine call_sites targets)
  | inl e =>
      e = TraceOverflowError
      \/ exists op, e = UnsupportedOpcodeError op /\ handler op = None
  end.
Proof.
  revert imports. induction call_sites as [|c cs IH]; intros imports; simpl.
  - exists []. repeat split; [constructor | rewrite app_nil_r; reflexivity].
  - destruct (trace vm_state fetch handler step_budget (entry c)) as [e|target] eqn:Ht.
    + apply (trace_error_kinds step_budget (entry c) e Ht).
    + specialize (IH (imports ++ [{| call_site_va := c; import_address := target |}])).
      destruct (process_import_calls vm_state fetch handler entry step_budget cs
                  (imports ++ [{| call_site_va := c; import_address := target |}]))
        as [e|imports']; [exact IH|].
      destruct IH as (targets & Hlen & Hall & ->).
      exists (target :: targets). simpl. repeat split.
      * rewrite Hlen. reflexivity.
      * constructor; assumption.
      * rewrite <- app_assoc. reflexivity.
Qed.

End TraceTheorems.

(** ** The import call scanner *)

Section ScanTheorems.

Import ImportCallScanner.

Variable decode : Z -> list byte -> option insn.
Variable mapped : list (Z * list byte).

Lemma scan_lower_bound (fuel : nat) (va : Z) (bytes : list byte) (a : Z) :
  In a (scan decode mapped fuel va bytes) -> va <= a.
Proof.
  revert va bytes. induction fuel as [|fuel IH]; intros va bytes Hin; simpl in Hin.
  - destruct Hin.
  - destruct bytes as [|b bytes]; [destruct Hin|].
    destruct (decode va (b :: bytes)) as [i|].
    + apply in_app_or in Hin. destruct Hin as [Hin|Hin].
      * destruct (is_import_call mapped i); simpl in Hin; [|destruct Hin].
        destruct Hin as [<-|[]]. lia.
      * apply IH in Hin. lia.
    + apply IH in Hin. lia.
Qed.

Lemma scan_increasing (fuel : nat) (va : Z) (bytes : list byte) :
  strictly_increasing (scan decode mapped fuel va bytes).
Proof.
  revert va bytes. induction fuel as [|fuel IH]; intros va bytes; simpl.
  - exact I.
  - destruct bytes as [|b bytes]; [exact I|].
    destruct (decode va (b :: bytes)) as [i|]; [|apply IH].
    destruct (is_import_call mapped i); simpl; [|apply IH].
    split; [|apply IH].
    intros a Hin. apply scan_lower_bound in Hin. lia.
Qed.

(** More fuel than the length of the buffer changes nothing: the scan
    has reached the end of the buffer. *)
Lemma scan_fuel_enough (fuel1 fuel2 : nat) (va : Z) (bytes : list byte) :
  (List.length bytes <= fuel1)%nat -> (List.length bytes <= fuel2)%nat ->
  scan decode mapped fuel1 va bytes = scan decode mapped fuel2 va bytes.
Proof.
  revert fuel2 va bytes.
  induction fuel1 as [|fuel1 IH]; intros fuel2 va bytes H1 H2.
  - destruct bytes; [|simpl in H1; lia]. destruct fuel2; reflexivity.
  - destruct fuel2 as [|fuel2].
    + destruct bytes; [reflexivity | simpl in H2; lia].
    + simpl. destruct bytes as [|b bytes]; [reflexivity|].
      simpl in H1, H2.
      destruct (decode va (b :: bytes)) as [i|].
      * pose proof (Pos2Nat.is_pos (insn_length i)) as Hpos.
        f_equal. apply IH; rewrite length_skipn; cbn [List.length]; lia.
      * apply IH; cbn [skipn List.length]; lia.
Qed.

Lemma scan_no_import_call (address : Z) (buffer : list byte) (fuel off : nat) :
  (forall o, ~ import_call_at decode mapped address buffer o) ->
  scan decode mapped fuel (address + Z.of_nat off) (skipn off buffer) = [].
Proof.
  intros Hno. revert off.
  induction fuel as [|fuel IH]; intros off; simpl; [reflexivity|].
  destruct (skipn off buffer) as [|b bytes] eqn:Hskip; [reflexivity|].
  assert (Hoff : (off < List.length buffer)%nat).
  { destruct (Nat.lt_ge_cases off (List.length buffer)) as [Hlt|Hge]; [exact Hlt|].
    rewrite skipn_all2 in Hskip by exact Hge. discriminate. }
  destruct (decode (address + Z.of_nat off) (b :: bytes)) as [i|] eqn:Hdec.
  - destruct (is_import_call mapped i) eqn:Hcall.
    + exfalso. apply (Hno off). split; [exact Hoff|].
      exists i. rewrite Hskip. split; assumption.
    + simpl. rewrite <- Hskip, skipn_skipn.
      replace (address + Z.of_nat off + Z.of_nat (Pos.to_nat (insn_length i)))
        with (address + Z.of_nat (Pos.to_nat (insn_length i) + off)) by lia.
      apply IH.
  - replace bytes with (skipn (1 + off) buffer)
      by (rewrite <- skipn_skipn, Hskip; reflexivity).
    replace (address + Z.of_nat off + 1) with (address + Z.of_nat (1 + off)) by lia.
    apply IH.
Qed.

(** C7. For every code buffer and base address, the addresses the scanner
    returns are strictly increasing; and when the buffer holds, at no
    offset, a call whose raw target lies in a mapped section, the scanner
    returns nothing. *)
Theorem scan_import_calls_increasing (address : Z) (buffer : list byte) :
  strictly_increasing (scan_import_calls decode mapped address buffer)
  /\ ((forall off, ~ import_call_at decode mapped address buffer off) ->
      scan_import_calls decode mapped address buffer = []).
Proof.
  split.
  - apply scan_increasing.
  - intros Hno. unfold scan_import_calls.
    pose proof (scan_no_import_call address buffer (List.length buffer) 0 Hno) as H.
    simpl in H. rewrite Z.add_0_r in H. exact H.
Qed.

End ScanTheorems.

(** ** The driver *)

Section MainTheorems.

Variable ptr_bits : Z.
Variable w : world.

Lemma bind_ret_l {A B : Type} (a : A) (f : A -> M B) : bind (ret a) f = f a.
Proof. unfold bind, ret. destruct (f a) as [t r]. reflexivity. Qed.

Lemma fst_bind_emit {B : Type} (e : event) (k : unit -> M B) :
  fst (bind (emit e) k) = e :: fst (k tt).
Proof. unfold bind, emit. destruct (k tt) as [t r]. reflexivity. Qed.

Lemma fst_run (m : M exit_code) : fst (run m) = fst m.
Proof. destruct m as [t [c|c]]; reflexivity. Qed.

(** C10. Once the process is attached and the module found, the
    architecture comes from the machine field of the file loaded from the
    module's path: for amd64 the first call into the pipeline is
    [construct_context] with the 64-bit flag set, for i386 with the flag
    clear; for any other machine id the run logs the error and ends with
    EXIT_FAILURE, and no call into the pipeline is made. *)
Theorem machine_selects_architecture (argv : list string) (actx : string)
    (cfg : config_context_t) (pid : Z) (m : module_t) (img : image_t) :
  arg_parser_parse w argv = value actx ->
  parse_toml w actx = returns cfg ->
  find_process_id w (process_name cfg) = value pid ->
  attach w pid = true ->
  find_module w (module_name_cfg cfg) = value m ->
  file_load w (path m) = Some img ->
  match machine (file_header (nt_headers img)) with
  | amd64 =>
      exists tr', fst (main ptr_bits w argv)
                  = ev_attach pid :: ev_file_load (path m)
                    :: ev_construct_context true :: tr'
                  /\ stage_calls [ev_attach pid; ev_file_load (path m)] = []
  | i386 =>
      exists tr', fst (main ptr_bits w argv)
                  = ev_attach pid :: ev_file_load (path m)
                    :: ev_construct_context false :: tr'
                  /\ stage_calls [ev_attach pid; ev_file_load (path m)] = []
  | machine_other _ =>
      main ptr_bits w argv
      = ([ev_attach pid; ev_file_load (path m);
          ev_error "invalid machine id. this software only supports x86 and x86_64 portable executables!" []],
         EXIT_FAILURE)
      /\ stage_calls (fst (main ptr_bits w argv)) = []
  end.
Proof.
  intros Hargs Hcfg Hpid Hattach Hmod Hload.
  assert (Hmain : main_m ptr_bits w argv
                  = bind (emit (ev_attach pid)) (fun _ =>
                    bind (emit (ev_file_load (path m))) (fun _ =>
                    bind (match machine (file_header (nt_headers img)) with
                          | amd64 => ret true
                          | i386 => ret false
                          | machine_other _ =>
                              fail "invalid machine id. this software only supports x86 and x86_64 portable executables!" []
                          end)
                      (fun is_x64 => main_pipeline ptr_bits w cfg m img is_x64)))).
  { unfold main_m. rewrite Hargs. cbn [or_fail]. rewrite bind_ret_l.
    rewrite Hcfg. cbn [try_catch]. rewrite bind_ret_l.
    rewrite Hpid. cbn [or_fail]. rewrite bind_ret_l.
    rewrite Hattach, Hmod. cbn [or_fail]. rewrite !bind_ret_l.
    rewrite Hload, bind_ret_l. reflexivity. }
  unfold main. rewrite Hmain.
  destruct (machine (file_header (nt_headers img))).
  - rewrite fst_run, !fst_bind_emit, bind_ret_l.
    unfold main_pipeline. rewrite fst_bind_emit. eexists. split; reflexivity.
  - rewrite fst_run, !fst_bind_emit, bind_ret_l.
    unfold main_pipeline. rewrite fst_bind_emit. eexists. split; reflexivity.
  - split; reflexivity.
Qed.

End MainTheorems.

(** ** The theorems on the small process *)

Lemma demo_dangling_unresolved :
  unresolved 64 Demo.dangling_import Demo.mapped_modules.
Proof.
  intros m e Hm He. unfold import_matches.
  destruct Hm as [<-|[<-|[]]]; simpl in He;
    repeat (destruct He as [<-|He]); try destruct He;
    vm_compute; discriminate.
Qed.

(** C1 fails on the code: the second import record of the small process
    matches no export of any mapped module, and the run still ends with
    EXIT_SUCCESS, logs no error, and hands [reconstruct] a table that lacks
    the record. *)
Lemma unresolved_import_is_dropped :
  In Demo.dangling_import Demo.imports
  /\ unresolved 64 Demo.dangling_import Demo.mapped_modules
  /\ scan_import_calls Demo.w 0x140001000 (repeat x00 5) = returns [0x140001000]
  /\ process_import_calls Demo.w [0x140001000] 0x140000000 = returns Demo.imports
  /\ snd (main 64 Demo.w Demo.argv) = EXIT_SUCCESS
  /\ existsb is_error (fst (main 64 Demo.w Demo.argv)) = false
  /\ iat_rebuild 64 Demo.imports Demo.mapped_modules = [("kernel32.dll", "Sleep")]
  /\ In (ev_reconstruct [("kernel32.dll", "Sleep")] ".newiat")
       (fst (main 64 Demo.w Demo.argv)).
Proof.
  split; [right; left; reflexivity|].
  split; [exact demo_dangling_unresolved|].
  split; [reflexivity|].
  split; [reflexivity|].
  split; [vm_compute; reflexivity|].
  split; [vm_compute; reflexivity|].
  split; [vm_compute; reflexivity|].
  vm_compute. do 13 right. left. reflexivity.
Qed.

Lemma iat_rebuild_skips_unresolved_witness :
  iat_rebuild 64 ([Demo.resolved_import] ++ Demo.dangling_import :: []) Demo.mapped_modules
  = iat_rebuild 64 ([Demo.resolved_import] ++ []) Demo.mapped_modules.
Proof.
  apply (iat_rebuild_skips_unresolved 64 [Demo.resolved_import] Demo.dangling_import []
           Demo.mapped_modules).
  intros m e Hm He. unfold import_matches.
  destruct Hm as [<-|[<-|[]]]; simpl in He;
    repeat (destruct He as [<-|He]); try destruct He;
    vm_compute; discriminate.
Defined.


Lemma import_body_first_match_witness :
  import_matches 64 Demo.resolved_import Demo.kernelbase
    {| export_name := "SleepForwarded"; export_va := 0x10000; export_ordinal := 1 |}
  /\ import_body 64 ([] ++ Demo.kernel32 :: [Demo.kernelbase]) [] Demo.resolved_import
     = [] ++ [(module_name Demo.kernel32, "Sleep")].
Proof.
  split; [vm_compute; reflexivity|].
  apply (import_body_first_match 64 Demo.resolved_import [] Demo.kernel32 [Demo.kernelbase]
           [ {| export_name := "Beep"; export_va := 0x40; export_ordinal := 1 |} ]
           {| export_name := "Sleep"; export_va := 0; export_ordinal := 2 |}
           [ {| export_name := "SleepAlias"; export_va := 0; export_ordinal := 3 |} ]
           []).
  - reflexivity.
  - intros m e [].
  - intros e' [<-|[]]. unfold import_matches. vm_compute. discriminate.
  - vm_compute. reflexivity.
Defined.

(** The three ends of a trace, on the small virtual machine. *)
Example trace_reaches_transfer :
  ImportResolver.trace (list Z) Demo.vm_fetch (Demo.vm_handler [1; 1; 2; 0x7FFE0000]) 8
    [1; 1; 2; 0x7FFE0000] = inr 0x7FFE0000.
Proof. reflexivity. Qed.

Example trace_overflows :
  ImportResolver.trace (list Z) Demo.vm_fetch (Demo.vm_handler [1; 3]) 8 [1; 3]
  = inl TraceOverflowError.
Proof. reflexivity. Qed.

Example trace_unsupported_opcode :
  ImportResolver.trace (list Z) Demo.vm_fetch (Demo.vm_handler [1; 7; 2; 5]) 8 [1; 7; 2; 5]
  = inl (UnsupportedOpcodeError 7).
Proof. reflexivity. Qed.

(** A buffer with one near call into the mapped section at [0x1010]. *)
Lemma scan_import_calls_increasing_witness :
  ImportCallScanner.scan_import_calls ImportCallScanner.decode_call_rel32
    [(0x1010, [x00; x00])] 0x1000 [xe8; x0b; x00; x00; x00; x90] = [0x1000]
  /\ strictly_increasing
       (ImportCallScanner.scan_import_calls ImportCallScanner.decode_call_rel32
          [(0x1010, [x00; x00])] 0x1000 [xe8; x0b; x00; x00; x00; x90])
  /\ ImportCallScanner.scan_import_calls ImportCallScanner.decode_call_rel32
       [] 0x1000 [xe8; x0b; x00; x00; x00; x90] = [].
Proof.
  split; [vm_compute; reflexivity|].
  split.
  - apply (proj1 (scan_import_calls_increasing ImportCallScanner.decode_call_rel32
                    [(0x1010, [x00; x00])] 0x1000 [xe8; x0b; x00; x00; x00; x90])).
  - apply (proj2 (scan_import_calls_increasing ImportCallScanner.decode_call_rel32
                    [] 0x1000 [xe8; x0b; x00; x00; x00; x90])).
    intros off (_ & i & _ & Hcall).
    unfold ImportCallScanner.is_import_call in Hcall.
    destruct (ImportCallScanner.call_target i); simpl in Hcall; discriminate.
Defined.

Lemma machine_selects_architecture_witness :
  main 64 Demo.w_arm Demo.argv
  = ([ev_attach 4242; ev_file_load "C:/target.exe";
      ev_error "invalid machine id. this software only supports x86 and x86_64 portable executables!" []],
     EXIT_FAILURE)
  /\ stage_calls (fst (main 64 Demo.w_arm Demo.argv)) = [].
Proof.
  apply (machine_selects_architecture 64 Demo.w_arm Demo.argv "config.toml"
           Demo.config_ctx 4242 Demo.module Demo.arm_image);
    reflexivity.
Defined.

(** ** More on the IAT rebuild loop *)

Section IatLoopMore.

Variable ptr_bits : Z.

Lemma exports_loop_find (va : Z) (mn : string) (es : list export_t) (iat : iat_t) :
  exports_loop va mn es (false, iat)
  = match find (fun e => va =? export_va e) es with
    | Some e => (true, add_import iat mn (export_name e))
    | None => (false, iat)
    end.
Proof.
  induction es as [|e es IH]; simpl; [reflexivity|].
  destruct (va =? export_va e); simpl; [reflexivity | exact IH].
Qed.

Lemma modules_loop_first_match (imp : import_t) (ms : list mapped_module_t) (iat : iat_t) :
  modules_loop ptr_bits imp ms (false, iat)
  = match first_match ptr_bits imp ms with
    | Some p => (true, iat ++ [p])
    | None => (false, iat)
    end.
Proof.
  induction ms as [|m ms IH]; simpl; [reflexivity|].
  rewrite exports_loop_find.
  destruct (find (fun e => uintptr_sub ptr_bits (import_address imp) (remote_image_base m)
                           =? export_va e) (exports (pe m))) as [e|];
    simpl; [reflexivity | exact IH].
Qed.

Lemma import_body_entries (ms : list mapped_module_t) (iat : iat_t) (imp : import_t) :
  import_body ptr_bits ms iat imp = iat ++ import_entries ptr_bits ms imp.
Proof.
  unfold import_body, import_entries. rewrite modules_loop_first_match.
  destruct (first_match ptr_bits imp ms); simpl; [reflexivity|].
  rewrite app_nil_r. reflexivity.
Qed.

Lemma fold_import_body (ms : list mapped_module_t) (imports : list import_t) (iat : iat_t) :
  fold_left (import_body ptr_bits ms) imports iat
  = iat ++ flat_map (import_entries ptr_bits ms) imports.
Proof.
  revert iat. induction imports as [|imp imports IH]; intros iat; simpl.
  - rewrite app_nil_r. reflexivity.
  - rewrite IH, import_body_entries, <- app_assoc. reflexivity.
Qed.

Lemma first_match_sound (imp : import_t) (ms : list mapped_module_t) (p : string * string) :
  first_match ptr_bits imp ms = Some p ->
  exists m e, In m ms /\ In e (exports (pe m)) /\ import_matches ptr_bits imp m e
              /\ p = (module_name m, export_name e).
Proof.
  induction ms as [|m ms IH]; simpl; [discriminate|].
  destruct (find (fun e => uintptr_sub ptr_bits (import_address imp) (remote_image_base m)
                           =? export_va e) (exports (pe m))) as [e|] eqn:Hfind.
  - intros [= <-]. apply find_some in Hfind. destruct Hfind as [Hin Heq].
    exists m, e. repeat split; [left; reflexivity | exact Hin |].
    unfold import_matches. apply Z.eqb_eq. exact Heq.
  - intros Hp. destruct (IH Hp) as (m' & e & Hm' & He & Hmatch & ->).
    exists m', e. repeat split; [right; exact Hm' | exact He | exact Hmatch].
Qed.

Lemma first_match_none (imp : import_t) (ms : list mapped_module_t) :
  first_match ptr_bits imp ms = None <-> unresolved ptr_bits imp ms.
Proof.
  induction ms as [|m ms IH]; simpl.
  - split; [intros _ m e [] | reflexivity].
  - destruct (find (fun e => uintptr_sub ptr_bits (import_address imp) (remote_image_base m)
                             =? export_va e) (exports (pe m))) as [e|] eqn:Hfind.
    + split; [discriminate|]. intros Hno. exfalso.
      apply find_some in Hfind. destruct Hfind as [Hin Heq].
      apply (Hno m e); [left; reflexivity | exact Hin |].
      unfold import_matches. apply Z.eqb_eq. exact Heq.
    + rewrite IH. split.
      * intros Hno m' e' [<-|Hm'] He'; [|apply Hno; assumption].
        unfold import_matches. intros Heq.
        pose proof (find_none _ _ Hfind e' He') as Hne. simpl in Hne.
        apply Z.eqb_neq in Hne. contradiction.
      * intros Hno m' e' Hm'. apply Hno. right. exact Hm'.
Qed.

Lemma has_match_first_match (ms : list mapped_module_t) (imp : import_t) :
  has_match ptr_bits ms imp
  = match first_match ptr_bits imp ms with Some _ => true | None => false end.
Proof.
  induction ms as [|m ms IH]; simpl; [reflexivity|].
  destruct (find (fun e => uintptr_sub ptr_bits (import_address imp) (remote_image_base m)
                           =? export_va e) (exports (pe m))) as [e|] eqn:Hfind.
  - apply find_some in Hfind. destruct Hfind as [Hin Heq].
    apply orb_true_iff. left. apply existsb_exists. exists e. split; assumption.
  - rewrite <- IH.
    replace (existsb (fun e => uintptr_sub ptr_bits (import_address imp) (remote_image_base m)
                               =? export_va e) (exports (pe m))) with false; [reflexivity|].
    symmetry. apply not_true_is_false. intros Hex. apply existsb_exists in Hex.
    destruct Hex as (e & Hin & Heq).
    pose proof (find_none _ _ Hfind e Hin) as Hne. simpl in Hne. congruence.
Qed.

(** X1. The two nested loops with their [found] flag and [break]s compute a
    search: the table is, record by record and in the order of the records,
    the first match of each record that has one. *)
Theorem iat_rebuild_flat_map (imports : list import_t) (ms : list mapped_module_t) :
  iat_rebuild ptr_bits imports ms = flat_map (import_entries ptr_bits ms) imports.
Proof.
  unfold iat_rebuild. rewrite fold_import_body. reflexivity.
Qed.

(** X2. The loop treats the records one by one: the table of two lists of
    records, one after the other, is the table of the first followed by the
    table of the second. *)
Theorem iat_rebuild_app (imports1 imports2 : list import_t) (ms : list mapped_module_t) :
  iat_rebuild ptr_bits (imports1 ++ imports2) ms
  = iat_rebuild ptr_bits imports1 ms ++ iat_rebuild ptr_bits imports2 ms.
Proof.
  unfold iat_rebuild. rewrite fold_left_app.
  rewrite (fold_import_body ms imports2 (fold_left (import_body ptr_bits ms) imports1 [])).
  rewrite (fold_import_body ms imports2 []). reflexivity.
Qed.

(** X3. The loop calls [add_import] once for each record that has a match,
    also when two records have the same target, and never for the others:
    the table has as many entries as there are records with a match. *)
Theorem iat_rebuild_length (imports : list import_t) (ms : list mapped_module_t) :
  List.length (iat_rebuild ptr_bits imports ms)
  = List.length (filter (has_match ptr_bits ms) imports).
Proof.
  unfold iat_rebuild. rewrite fold_import_body. cbn [app].
  induction imports as [|imp imports IH]; simpl; [reflexivity|].
  rewrite length_app, IH, has_match_first_match. unfold import_entries.
  destruct (first_match ptr_bits imp ms); reflexivity.
Qed.

(** X4. Every entry of the table comes from a record and a real match: it
    is the name of a mapped module and the name of one of its exports whose
    address passes the test of line 205 for that record. *)
Theorem iat_rebuild_sound (imports : list import_t) (ms : list mapped_module_t)
    (mn en : string) :
  In (mn, en) (iat_rebuild ptr_bits imports ms) ->
  exists imp m e,
    In imp imports /\ In m ms /\ In e (exports (pe m))
    /\ import_matches ptr_bits imp m e
    /\ mn = module_name m /\ en = export_name e.
Proof.
  unfold iat_rebuild. rewrite fold_import_body. cbn [app].
  intros Hin. apply in_flat_map in Hin. destruct Hin as (imp & Himp & Hin).
  unfold import_entries in Hin.
  destruct (first_match ptr_bits imp ms) as [p|] eqn:Hfm; [|destruct Hin].
  destruct Hin as [->|[]].
  destruct (first_match_sound imp ms _ Hfm) as (m & e & Hm & He & Hmatch & Hp).
  injection Hp as -> ->.
  exists imp, m, e. repeat split; assumption.
Qed.

(** X5. The body of the loop leaves the table as it was exactly when no
    export of any mapped module matches the record: a record with a match is
    never dropped. *)
Theorem import_body_unchanged_iff (ms : list mapped_module_t) (iat : iat_t)
    (imp : import_t) :
  import_body ptr_bits ms iat imp = iat <-> unresolved ptr_bits imp ms.
Proof.
  rewrite import_body_entries, <- first_match_none. unfold import_entries.
  destruct (first_match ptr_bits imp ms) as [p|].
  - split; [|discriminate]. intros Heq. exfalso.
    apply (f_equal (@List.length _)) in Heq. rewrite length_app in Heq.
    simpl in Heq. lia.
  - rewrite app_nil_r. split; reflexivity.
Qed.

Lemma import_body_same_target (imp1 imp2 : import_t) (ms : list mapped_module_t)
    (iat : iat_t) :
  import_address imp1 = import_address imp2 ->
  import_body ptr_bits ms iat imp1 = import_body ptr_bits ms iat imp2.
Proof.
  intros Heq. unfold import_body. f_equal.
  generalize (false, iat) as st.
  induction ms as [|m ms IH]; intros st; simpl; [reflexivity|].
  rewrite Heq, IH. reflexivity.
Qed.

(** X6. The loop reads only the target of a record: two lists of records
    with the same targets, in the same order, give the same table, whatever
    their call sites are. *)
Theorem iat_rebuild_ignores_call_site (imports1 imports2 : list import_t)
    (ms : list mapped_module_t) :
  map import_address imports1 = map import_address imports2 ->
  iat_rebuild ptr_bits imports1 ms = iat_rebuild ptr_bits imports2 ms.
Proof.
  unfold iat_rebuild. generalize (@nil (string * string)) as iat.
  revert imports2. induction imports1 as [|imp1 imports1 IH];
    intros [|imp2 imports2] iat Hmap; cbn [map fold_left] in *;
    try discriminate; [reflexivity|].
  injection Hmap as Hhd Htl.
  rewrite (import_body_same_target imp1 imp2 ms iat Hhd).
  apply IH. exact Htl.
Qed.

(** X7. For a target, a base and an export that lie in the address space
    (the target below [2 ^ ptr_bits], the export's address [base + export_va]
    too), the test of line 205 holds exactly when the target is the export's
    address; a target below the base of the module matches none of its
    exports. *)
Theorem import_matches_in_range (imp : import_t) (m : mapped_module_t) (e : export_t) :
  0 <= import_address imp < 2 ^ ptr_bits ->
  0 <= remote_image_base m ->
  0 <= export_va e ->
  remote_image_base m + export_va e < 2 ^ ptr_bits ->
  (import_matches ptr_bits imp m e
   <-> import_address imp = remote_image_base m + export_va e).
Proof.
  intros Hia Hbase Hva Hend. unfold import_matches, uintptr_sub, uintptr_wrap.
  destruct (Z_le_gt_dec (remote_image_base m) (import_address imp)) as [Hle|Hgt].
  - rewrite Z.mod_small by lia. lia.
  - replace (import_address imp - remote_image_base m)
      with (import_address imp - remote_image_base m + 2 ^ ptr_bits + (-1) * 2 ^ ptr_bits)
      by lia.
    rewrite Z_mod_plus_full, Z.mod_small by lia. lia.
Qed.

(** X8. The order of the mapped modules matters only for ties: when all the
    matches of a record carry the same module name and export name, the
    body of the loop adds the same entry for every order of the modules. *)
Theorem import_body_order_irrelevant (imp : import_t) (ms ms' : list mapped_module_t)
    (iat : iat_t) :
  Permutation ms ms' ->
  (forall m1 e1 m2 e2,
      In m1 ms -> In e1 (exports (pe m1)) -> import_matches ptr_bits imp m1 e1 ->
      In m2 ms -> In e2 (exports (pe m2)) -> import_matches ptr_bits imp m2 e2 ->
      module_name m1 = module_name m2 /\ export_name e1 = export_name e2) ->
  import_body ptr_bits ms iat imp = import_body ptr_bits ms' iat imp.
Proof.
  intros Hperm Hties. rewrite !import_body_entries. f_equal. unfold import_entries.
  destruct (first_match ptr_bits imp ms) as [p|] eqn:Hfm;
    destruct (first_match ptr_bits imp ms') as [p'|] eqn:Hfm'.
  - destruct (first_match_sound imp ms p Hfm) as (m & e & Hm & He & Hmatch & ->).
    destruct (first_match_sound imp ms' p' Hfm') as (m' & e' & Hm' & He' & Hmatch' & ->).
    apply (Permutation_in _ (Permutation_sym Hperm)) in Hm'.
    destruct (Hties m e m' e' Hm He Hmatch Hm' He' Hmatch') as [-> ->]. reflexivity.
  - exfalso. apply first_match_none in Hfm'.
    destruct (first_match_sound imp ms p Hfm) as (m & e & Hm & He & Hmatch & _).
    apply (Hfm' m e); [apply (Permutation_in _ Hperm); exact Hm | exact He | exact Hmatch].
  - exfalso. apply first_match_none in Hfm.
    destruct (first_match_sound imp ms' p' Hfm') as (m & e & Hm & He & Hmatch & _).
    apply (Hfm m e);
      [apply (Permutation_in _ (Permutation_sym Hperm)); exact Hm | exact He | exact Hmatch].
  - reflexivity.
Qed.

End IatLoopMore.

(** ** More on the section reads *)

Section SectionReads.

Variable ptr_bits : Z.
Variable w : world.
Variable m : module_t.
Variable img : image_t.

Lemma read_section_ok (h : section_header_t) (buf : list byte) :
  read w (section_address ptr_bits m h) (virtual_size h) = Some buf ->
  read_section ptr_bits w m h
  = ([read_event ptr_bits m h], inr (section_address ptr_bits m h, buf)).
Proof.
  intros Hread. unfold read_section, read_event, section_address in *.
  rewrite Hread. reflexivity.
Qed.

Lemma read_section_failed (h : section_header_t) :
  read w (section_address ptr_bits m h) (virtual_size h) = None ->
  read_section ptr_bits w m h
  = ([read_event ptr_bits m h; ev_error "failed to read from remote process" []],
     inl EXIT_FAILURE).
Proof.
  intros Hread. unfold read_section, read_event, section_address in *.
  rewrite Hread. reflexivity.
Qed.

(** X9. When every configured section is in the static image and every
    remote read answers, the loop makes one read per section, in the order
    of the configuration, each at the module base plus the section's virtual
    address and of its virtual size, and it adds one entry per section, in
    that order, behind the entries it was given. *)
Theorem vmp_sections_loop_all_read (names : list string)
    (rs : list (section_header_t * list byte)) (acc : list (Z * list byte)) :
  Forall2 (section_ok ptr_bits w m img) names rs ->
  vmp_sections_loop ptr_bits w m img names acc
  = (read_events ptr_bits m rs, inr (acc ++ section_entries ptr_bits m rs)).
Proof.
  intros Hall. revert acc.
  induction Hall as [|name r names rs [Hfind Hread] _ IH]; intros acc; simpl.
  - rewrite app_nil_r. reflexivity.
  - rewrite Hfind, (read_section_ok (fst r) (snd r) Hread). cbn [bind].
    rewrite IH. cbn [app]. rewrite <- app_assoc. reflexivity.
Qed.

(** X10. The loop stops at the first configured section that the static
    image lacks: after the reads of the sections before it, it logs the
    error that names the section and returns EXIT_FAILURE; the sections
    after it are neither looked up nor read. *)
Theorem vmp_sections_loop_first_missing (names1 : list string) (name : string)
    (names2 : list string) (rs1 : list (section_header_t * list byte))
    (acc : list (Z * list byte)) :
  Forall2 (section_ok ptr_bits w m img) names1 rs1 ->
  find_section img name = None ->
  vmp_sections_loop ptr_bits w m img (names1 ++ name :: names2) acc
  = (read_events ptr_bits m rs1 ++ [ev_error "failed to find section {}" [arg_str name]],
     inl EXIT_FAILURE).
Proof.
  intros Hall Hnone. revert acc.
  induction Hall as [|name1 r names1 rs1 [Hfind Hread] _ IH]; intros acc; simpl.
  - rewrite Hnone. reflexivity.
  - rewrite Hfind, (read_section_ok (fst r) (snd r) Hread). cbn [bind].
    rewrite IH. reflexivity.
Qed.

(** X11. The loop stops at the first remote read that fails: after the
    reads of the sections before it and the failed read itself, it logs the
    error and returns EXIT_FAILURE; the sections after it are neither looked
    up nor read. *)
Theorem vmp_sections_loop_first_unreadable (names1 : list string) (name : string)
    (names2 : list string) (rs1 : list (section_header_t * list byte))
    (h : section_header_t) (acc : list (Z * list byte)) :
  Forall2 (section_ok ptr_bits w m img) names1 rs1 ->
  find_section img name = Some h ->
  read w (section_address ptr_bits m h) (virtual_size h) = None ->
  vmp_sections_loop ptr_bits w m img (names1 ++ name :: names2) acc
  = (read_events ptr_bits m rs1
       ++ [read_event ptr_bits m h; ev_error "failed to read from remote process" []],
     inl EXIT_FAILURE).
Proof.
  intros Hall Hsome Hfail. revert acc.
  induction Hall as [|name1 r names1 rs1 [Hfind Hread] _ IH]; intros acc; simpl.
  - rewrite Hsome, (read_section_failed h Hfail). reflexivity.
  - rewrite Hfind, (read_section_ok (fst r) (snd r) Hread). cbn [bind].
    rewrite IH. reflexivity.
Qed.

(** Every run of the loop is one of the three above. *)
Lemma vmp_sections_loop_cases (names : list string) (acc : list (Z * list byte)) :
  (exists rs,
      Forall2 (section_ok ptr_bits w m img) names rs
      /\ vmp_sections_loop ptr_bits w m img names acc
         = (read_events ptr_bits m rs, inr (acc ++ section_entries ptr_bits m rs)))
  \/ (exists names1 name names2 rs1 tail,
         names = names1 ++ name :: names2
         /\ Forall2 (section_ok ptr_bits w m img) names1 rs1
         /\ vmp_sections_loop ptr_bits w m img names acc
            = (read_events ptr_bits m rs1 ++ tail, inl EXIT_FAILURE)
         /\ ((find_section img name = None
              /\ tail = [ev_error "failed to find section {}" [arg_str name]])
             \/ (exists h, find_section img name = Some h
                           /\ read w (section_address ptr_bits m h) (virtual_size h) = None
                           /\ tail = [read_event ptr_bits m h;
                                      ev_error "failed to read from remote process" []]))).
Proof.
  revert acc. induction names as [|name names IH]; intros acc.
  - left. exists []. split; [constructor|]. simpl. rewrite app_nil_r. reflexivity.
  - simpl. destruct (find_section img name) as [h|] eqn:Hfind.
    + destruct (read w (section_address ptr_bits m h) (virtual_size h)) as [buf|] eqn:Hread.
      * rewrite (read_section_ok h buf Hread). cbn [bind].
        destruct (IH (acc ++ [(section_address ptr_bits m h, buf)]))
          as [(rs & Hall & ->)|(names1 & name' & names2 & rs1 & tail & -> & Hall & -> & Htail)].
        -- left. exists ((h, buf) :: rs). split.
           ++ constructor; [split; assumption | exact Hall].
           ++ cbn [app]. rewrite <- app_assoc. reflexivity.
        -- right. exists (name :: names1), name', names2, ((h, buf) :: rs1), tail.
           repeat split; try assumption.
           constructor; [split; assumption | exact Hall].
      * right. exists [], name, names, [],
          [read_event ptr_bits m h; ev_error "failed to read from remote process" []].
        rewrite (read_section_failed h Hread).
        repeat split; [constructor|]. right. exists h. repeat split; assumption.
    + right. exists [], name, names, [],
        [ev_error "failed to find section {}" [arg_str name]].
      repeat split; [constructor|]. left. split; [exact Hfind | reflexivity].
Qed.

End SectionReads.

(** ** More on the driver *)

Section MainMore.

Variable ptr_bits : Z.
Variable w : world.

(** *** The [add_import] calls *)

Lemma add_imports_ok (calls : iat_t) :
  (forall q, In q calls -> add_import_call w (fst q) (snd q) = returns tt) ->
  add_imports w calls = (add_import_events calls, inr tt).
Proof.
  induction calls as [|q calls IH]; intros Hall; simpl; [reflexivity|].
  rewrite (Hall q (or_introl eq_refl)). cbn [uncaught bind ret emit app].
  rewrite IH by (intros q' Hq'; apply Hall; right; exact Hq'). reflexivity.
Qed.

(** The calls all return, or the run is aborted at the first that throws. *)
Lemma add_imports_cases (calls : iat_t) :
  ((forall q, In q calls -> add_import_call w (fst q) (snd q) = returns tt)
   /\ add_imports w calls = (add_import_events calls, inr tt))
  \/ (exists done mn en rest what,
         calls = done ++ (mn, en) :: rest
         /\ (forall q, In q done -> add_import_call w (fst q) (snd q) = returns tt)
         /\ (forall q, In q done -> In q calls)
         /\ In (mn, en) calls
         /\ add_import_call w mn en = throws what
         /\ add_imports w calls
            = (add_import_events done ++ [ev_add_import mn en], inl ABORTED)).
Proof.
  induction calls as [|[mn en] calls IH].
  - left. split; [intros q []|reflexivity].
  - simpl. destruct (add_import_call w mn en) as [[]|what] eqn:Hcall.
    + cbn [uncaught bind ret emit app].
      destruct IH as [[Hall ->]|(done & mn' & en' & rest & what & -> & Hdone & _ & _ & Hthrow & ->)].
      * left. split; [|reflexivity].
        intros q [<-|Hq]; [exact Hcall | apply Hall; exact Hq].
      * right. exists ((mn, en) :: done), mn', en', rest, what.
        repeat split; try assumption.
        -- intros q [<-|Hq]; [exact Hcall | apply Hdone; exact Hq].
        -- intros q [<-|Hq]; [left; reflexivity | right; apply in_or_app; left; exact Hq].
        -- right. apply in_elt.
    + right. exists [], mn, en, calls, what.
      repeat split; try assumption; try reflexivity.
      * intros q [].
      * intros q [].
      * left. reflexivity.
Qed.

(** *** What the segments of a log contribute *)

Lemma filter_error_reads (m : module_t) (rs : list (section_header_t * list byte)) :
  filter is_error (read_events ptr_bits m rs) = [].
Proof. induction rs as [|r rs IH]; simpl; [reflexivity | exact IH]. Qed.

Lemma filter_error_adds (iat : iat_t) : filter is_error (add_import_events iat) = [].
Proof. induction iat as [|p iat IH]; simpl; [reflexivity | exact IH]. Qed.

Lemma no_dump_reads (m : module_t) (rs : list (section_header_t * list byte)) :
  existsb is_dump (read_events ptr_bits m rs) = false.
Proof. induction rs as [|r rs IH]; simpl; [reflexivity | exact IH]. Qed.

Lemma no_dump_adds (iat : iat_t) : existsb is_dump (add_import_events iat) = false.
Proof. induction iat as [|p iat IH]; simpl; [reflexivity | exact IH]. Qed.

Lemma stage_calls_app (t1 t2 : list event) :
  stage_calls (t1 ++ t2) = stage_calls t1 ++ stage_calls t2.
Proof. apply filter_app. Qed.

Lemma stage_calls_reads (m : module_t) (rs : list (section_header_t * list byte)) :
  stage_calls (read_events ptr_bits m rs) = [].
Proof. induction rs as [|r rs IH]; simpl; [reflexivity | exact IH]. Qed.

Lemma stage_calls_adds (iat : iat_t) :
  stage_calls (add_import_events iat) = add_import_events iat.
Proof. induction iat as [|p iat IH]; simpl; [reflexivity | f_equal; exact IH]. Qed.


Lemma passed_reads (m : module_t) (img : image_t) (names : list string)
    (rs : list (section_header_t * list byte)) :
  Forall2 (section_ok ptr_bits w m img) names rs ->
  forallb (passed w) (read_events ptr_bits m rs) = true.
Proof.
  intros Hall. induction Hall as [|name r names rs [_ Hread] _ IH]; simpl; [reflexivity|].
  rewrite IH. unfold passed, read_event. cbn [failed is_dump]. rewrite Hread. reflexivity.
Qed.

Lemma passed_adds (iat : iat_t) :
  (forall q, In q iat -> add_import_call w (fst q) (snd q) = returns tt) ->
  forallb (passed w) (add_import_events iat) = true.
Proof.
  induction iat as [|q iat IH]; intros Hall; simpl; [reflexivity|].
  rewrite IH by (intros q' Hq'; apply Hall; right; exact Hq').
  unfold passed. cbn [failed is_dump]. rewrite (Hall q (or_introl eq_refl)). reflexivity.
Qed.

Lemma passed_not_failed (pre : list event) (e : event) :
  forallb (passed w) pre = true -> In e pre -> failed w e = false /\ is_dump e = false.
Proof.
  intros Hall Hin. rewrite forallb_forall in Hall. specialize (Hall e Hin).
  unfold passed in Hall. apply andb_prop in Hall. destruct Hall as [Hf Hd].
  split; [destruct (failed w e) | destruct (is_dump e)]; simpl in *; congruence.
Qed.

Lemma explains_reads (code : exit_code) (m : module_t) (img : image_t)
    (names : list string) (rs : list (section_header_t * list byte)) :
  Forall2 (section_ok ptr_bits w m img) names rs ->
  forallb (explains w code) (read_events ptr_bits m rs) = true.
Proof.
  intros Hall. induction Hall as [|name r names rs [_ Hread] _ IH]; simpl; [reflexivity|].
  rewrite IH. unfold explains, read_event. cbn [failed]. rewrite Hread. reflexivity.
Qed.

Lemma explains_adds (code : exit_code) (iat : iat_t) :
  (forall q, In q iat -> add_import_call w (fst q) (snd q) = returns tt) ->
  forallb (explains w code) (add_import_events iat) = true.
Proof.
  induction iat as [|q iat IH]; intros Hall; simpl; [reflexivity|].
  rewrite IH by (intros q' Hq'; apply Hall; right; exact Hq').
  unfold explains. cbn [failed]. rewrite (Hall q (or_introl eq_refl)). reflexivity.
Qed.

Lemma places_reads (m : module_t) (rs : list (section_header_t * list byte))
    (rest : list event) :
  places true (read_events ptr_bits m rs ++ rest)
  = repeat 7%nat (List.length rs) ++ places true rest.
Proof. induction rs as [|r rs IH]; simpl; [reflexivity | f_equal; exact IH]. Qed.

Lemma places_adds (after_scan : bool) (iat : iat_t) (rest : list event) :
  places after_scan (add_import_events iat ++ rest)
  = repeat 12%nat (List.length iat) ++ places after_scan rest.
Proof.
  induction iat as [|p iat IH]; simpl; [reflexivity|].
  rewrite orb_false_r. f_equal. exact IH.
Qed.

Lemma ordered_places_le (p k : nat) (l : list nat) :
  (p <= k)%nat -> ordered_places k l = true -> ordered_places p l = true.
Proof.
  intros Hle. destruct l as [|a l]; simpl; [reflexivity|].
  intros H. apply andb_prop in H. destruct H as [Hka Hrest]. rewrite Hrest, andb_true_r.
  apply orb_true_iff in Hka. apply orb_true_iff.
  destruct Hka as [Hlt|Heq].
  - left. apply Nat.ltb_lt in Hlt. apply Nat.ltb_lt. lia.
  - apply andb_prop in Heq. destruct Heq as [Heq Hrep]. apply Nat.eqb_eq in Heq. subst a.
    destruct (Nat.eq_dec p k) as [->|Hne].
    + right. rewrite Nat.eqb_refl. exact Hrep.
    + left. apply Nat.ltb_lt. lia.
Qed.

Lemma ordered_places_repeat (p k n : nat) (rest : list nat) :
  (p <=? k)%nat = true -> repeatable k = true -> ordered_places k rest = true ->
  ordered_places p (repeat k n ++ rest) = true.
Proof.
  intros Hpk Hrep Hrest. apply Nat.leb_le in Hpk.
  apply (ordered_places_le p k); [exact Hpk|].
  induction n as [|n IH]; simpl; [exact Hrest|].
  rewrite Nat.eqb_refl, Hrep, orb_true_r. exact IH.
Qed.

Lemma pipeline_calls_app (t1 t2 : list event) :
  pipeline_calls (t1 ++ t2) = pipeline_calls t1 ++ pipeline_calls t2.
Proof.
  induction t1 as [|e t1 IH]; simpl; [reflexivity|].
  destruct (call_of e); simpl; rewrite IH; reflexivity.
Qed.

Lemma pipeline_calls_reads (m : module_t) (rs : list (section_header_t * list byte)) :
  pipeline_calls (read_events ptr_bits m rs) = [].
Proof. induction rs as [|r rs IH]; simpl; [reflexivity | exact IH]. Qed.

Lemma pipeline_calls_adds (iat : iat_t) :
  pipeline_calls (add_import_events iat) = repeat call_add_import (List.length iat).
Proof. induction iat as [|p iat IH]; simpl; [reflexivity | f_equal; exact IH]. Qed.

Lemma repeat_snoc_nil {A : Type} (a : A) (n : nat) :
  repeat a n ++ [a] = repeat a (S n) ++ [].
Proof.
  rewrite app_nil_r. induction n as [|n IH]; simpl; [reflexivity | f_equal; exact IH].
Qed.

Lemma read_events_in (m : module_t) (rs : list (section_header_t * list byte)) (a n : Z) :
  In (ev_read a n) (read_events ptr_bits m rs) ->
  exists r, In r rs /\ a = section_address ptr_bits m (fst r) /\ n = virtual_size (fst r).
Proof.
  unfold read_events. intros Hin. apply in_map_iff in Hin.
  destruct Hin as (r & Heq & Hr). injection Heq as <- <-.
  exists r. repeat split. exact Hr.
Qed.

Lemma read_events_form (m : module_t) (rs : list (section_header_t * list byte))
    (e : event) :
  In e (read_events ptr_bits m rs) -> exists a n, e = ev_read a n.
Proof.
  unfold read_events. intros Hin. apply in_map_iff in Hin.
  destruct Hin as (r & <- & _). eexists. eexists. reflexivity.
Qed.

Lemma add_import_events_form (iat : iat_t) (e : event) :
  In e (add_import_events iat) ->
  exists mn en, In (mn, en) iat /\ e = ev_add_import mn en.
Proof.
  unfold add_import_events. intros Hin. apply in_map_iff in Hin.
  destruct Hin as ([mn en] & <- & Hp). exists mn, en. split; [exact Hp | reflexivity].
Qed.

Lemma add_import_events_no_read (iat : iat_t) (a n : Z) :
  ~ In (ev_read a n) (add_import_events iat).
Proof.
  unfold add_import_events. intros Hin. apply in_map_iff in Hin.
  destruct Hin as (p & Heq & _). discriminate.
Qed.

Lemma section_ok_in (m : module_t) (img : image_t) (names : list string)
    (rs : list (section_header_t * list byte)) (r : section_header_t * list byte) :
  Forall2 (section_ok ptr_bits w m img) names rs -> In r rs ->
  exists name, In name names /\ find_section img name = Some (fst r).
Proof.
  intros Hall. induction Hall as [|name r0 names rs [Hfind _] _ IH]; intros Hin.
  - destruct Hin.
  - destruct Hin as [<-|Hin].
    + exists name. split; [left; reflexivity | exact Hfind].
    + destruct (IH Hin) as (name' & Hin' & Hfind'). exists name'.
      split; [right; exact Hin' | exact Hfind'].
Qed.

Lemma confined_section (argv : list string) (actx : string) (cfg : config_context_t)
    (m : module_t) (img : image_t) (name : string) (h : section_header_t) :
  arg_parser_parse w argv = value actx ->
  parse_toml w actx = returns cfg ->
  find_module w (module_name_cfg cfg) = value m ->
  file_load w (path m) = Some img ->
  name = ".text" \/ In name (vmp_sections cfg) ->
  find_section img name = Some h ->
  read_confined ptr_bits w argv (section_address ptr_bits m h) (virtual_size h).
Proof.
  intros Hargs Hcfg Hmod Hload Hname Hfind.
  exists actx, cfg, m, img, name, h. repeat split; assumption.
Qed.

Lemma confined_read_events (argv : list string) (actx : string) (cfg : config_context_t)
    (m : module_t) (img : image_t) (names : list string)
    (rs : list (section_header_t * list byte)) (a n : Z) :
  arg_parser_parse w argv = value actx ->
  parse_toml w actx = returns cfg ->
  find_module w (module_name_cfg cfg) = value m ->
  file_load w (path m) = Some img ->
  Forall2 (section_ok ptr_bits w m img) names rs ->
  (forall name, In name names -> In name (vmp_sections cfg)) ->
  In (ev_read a n) (read_events ptr_bits m rs) ->
  read_confined ptr_bits w argv a n.
Proof.
  intros Hargs Hcfg Hmod Hload Hall Hincl Hin.
  apply read_events_in in Hin. destruct Hin as (r & Hr & -> & ->).
  destruct (section_ok_in m img names rs r Hall Hr) as (name & Hname & Hfind).
  apply (confined_section argv actx cfg m img name (fst r)); auto.
Qed.

(** *** Every path through [main] *)

(** The case analysis of [main], one case per [return] and per call that may
    abort the run; [fin] closes each case from the equation [H] of the run. *)
Ltac walk_prologue argv H fin pipeline :=
  unfold main, main_m in H;
  destruct (arg_parser_parse w argv) as [actx|err] eqn:Hargs; [|fin H];
  cbn [or_fail bind ret] in H;
  destruct (parse_toml w actx) as [cfg|what] eqn:Hcfg; [|fin H];
  cbn [try_catch bind ret app] in H;
  destruct (find_process_id w (process_name cfg)) as [pid|err] eqn:Hpid; [|fin H];
  cbn [or_fail bind ret app emit] in H;
  destruct (attach w pid) eqn:Hattach; [|fin H];
  cbn [or_fail bind ret app emit] in H;
  destruct (find_module w (module_name_cfg cfg)) as [m|err] eqn:Hmod; [|fin H];
  cbn [or_fail bind ret app emit] in H;
  destruct (file_load w (path m)) as [img|] eqn:Hload; [|fin H];
  cbn [or_fail bind ret app emit] in H;
  destruct (machine (file_header (nt_headers img))) eqn:Hmachine;
    [pipeline cfg m img H fin | pipeline cfg m img H fin | fin H].

Ltac walk_pipeline cfg m img H fin :=
  unfold main_pipeline in H; cbn [bind ret app emit] in H;
  match type of H with
  | context [construct_context w ?b] =>
      destruct (construct_context w b) as [[]|what] eqn:Hctx; [|fin H]
  end;
  cbn [try_catch bind ret app emit] in H;
  destruct (compute_sections w (vmp_sections cfg) (address m) img) as [[]|what] eqn:Hcomp;
    [|fin H];
  cbn [try_catch bind ret app emit] in H;
  destruct (find_section img ".text") as [text_section|] eqn:Htext; [|fin H];
  destruct (read w (section_address ptr_bits m text_section) (virtual_size text_section))
    as [buf|] eqn:Hread;
    [rewrite (read_section_ok ptr_bits w m text_section buf Hread) in H
    |rewrite (read_section_failed ptr_bits w m text_section Hread) in H; fin H];
  cbn [bind ret app emit fst snd] in H;
  destruct (scan_import_calls w (section_address ptr_bits m text_section) buf)
    as [calls|what] eqn:Hscan; [|fin H];
  cbn [uncaught bind ret app emit fst snd] in H;
  destruct (vmp_sections_loop_cases ptr_bits w m img (vmp_sections cfg)
              [(section_address ptr_bits m text_section, buf)])
    as [(rs & Hall & Hloop)
       |(names1 & name & names2 & rs1 & tail & Hsplit & Hall & Hloop & Htail)];
    rewrite Hloop in H; clear Hloop;
    [|destruct Htail as [[Hnone ->]|(h & Hsome & Hfail & ->)]; fin H];
  cbn [bind ret app emit fst snd] in H;
  destruct (map_sections w _) as [[]|what] eqn:Hmap; [|fin H];
  cbn [try_catch bind ret app emit fst snd] in H;
  destruct (process_import_calls w calls (address m)) as [imports|what] eqn:Hproc;
    [|fin H];
  cbn [try_catch bind ret app emit fst snd] in H;
  destruct (modules_local_mapped w) as [mods|err] eqn:Hmods; [|fin H];
  cbn [or_fail try_catch bind ret app emit fst snd] in H;
  destruct (add_imports_cases (iat_rebuild ptr_bits imports mods))
    as [[Hadds Hrun]
       |(done & mn & en & rest & what & Hsplit2 & Hdone & Hincl & Hin2 & Hthrow & Hrun)];
    rewrite Hrun in H; clear Hrun; [|fin H];
  cbn [or_fail try_catch bind ret app emit fst snd] in H;
  destruct (initialize_memory_pe w (address m) (size m)) as [[]|what] eqn:Hinit;
    [|fin H];
  cbn [or_fail try_catch bind ret app emit fst snd] in H;
  destruct (reconstruct w (iat_rebuild ptr_bits imports mods) (iat_section_name cfg))
    as [[]|what] eqn:Hrec; [|fin H];
  cbn [or_fail try_catch bind ret app emit fst snd] in H;
  destruct (dump_to_fs w (dump_path cfg)) as [[]|what] eqn:Hdump; fin H.

Ltac walk_main argv H fin := walk_prologue argv H fin walk_pipeline.

Ltac rewrite_answers :=
  repeat match goal with
         | H : ?x = _ |- context [match ?x with _ => _ end] => rewrite H
         | H : ?x = _ |- context [negb ?x] => rewrite H
         end.

Ltac land H :=
  cbn [bind ret emit exit fail or_fail try_catch uncaught run app fst snd] in H;
  injection H as <- <-.

Ltac no_dump :=
  repeat first
    [ progress cbn [existsb is_dump orb app]
    | rewrite existsb_app
    | rewrite no_dump_reads
    | rewrite no_dump_adds ];
  reflexivity.

Ltac dump_reached what_post :=
  right;
  match goal with
  | Hargs : arg_parser_parse w _ = value ?actx,
    Hcfg : parse_toml w _ = returns ?cfg,
    Hpid : find_process_id w _ = value ?pid,
    Hmod : find_module w _ = value ?m,
    Hload : file_load w _ = Some ?img,
    Hctx : construct_context w ?b = returns tt,
    Htext : find_section ?img ".text" = Some ?ts,
    Hread : read w _ _ = Some ?buf,
    Hscan : scan_import_calls w _ _ = returns ?calls,
    Hall : Forall2 _ _ ?rs,
    Hproc : process_import_calls w _ _ = returns ?imports,
    Hmods : modules_local_mapped w = value ?mods,
    Hadds : forall q, In q _ -> add_import_call w (fst q) (snd q) = returns tt |- _ =>
      exists actx, cfg, pid, m, img, b, ts, (section_address ptr_bits m ts, buf),
        (section_entries ptr_bits m rs), calls, imports, mods;
      exists ([ev_attach pid; ev_file_load (path m); ev_construct_context b;
               ev_compute_sections (vmp_sections cfg) (address m) img;
               read_event ptr_bits m ts;
               ev_scan_import_calls (section_address ptr_bits m ts) buf]
              ++ read_events ptr_bits m rs
              ++ [ev_map_sections
                    ((section_address ptr_bits m ts, buf) :: section_entries ptr_bits m rs);
                  ev_process_import_calls calls (address m);
                  ev_modules_local_mapped; ev_info "starting iat rebuild..."]
              ++ add_import_events (iat_rebuild ptr_bits imports mods)
              ++ [ev_initialize_memory_pe (address m) (size m);
                  ev_reconstruct (iat_rebuild ptr_bits imports mods) (iat_section_name cfg)]);
      exists what_post;
      cbn [fst snd];
      repeat match goal with |- _ /\ _ => split end;
      try assumption; try reflexivity;
      try (rewrite <- !app_assoc; cbn [app]; rewrite <- ?app_assoc; reflexivity);
      try (rewrite !forallb_app, (passed_reads m img _ rs Hall), (passed_adds _ Hadds);
           cbn [forallb]; unfold passed, read_event; cbn [failed is_dump negb andb];
           rewrite_answers; reflexivity);
      try (rewrite !in_app_iff; cbn [In]; tauto);
      try (rewrite !stage_calls_app, stage_calls_reads, stage_calls_adds; reflexivity)
  end.

Ltac cases_fin H :=
  land H;
  first
    [ left; split; [discriminate | no_dump]
    | dump_reached (@nil event); left; repeat split; assumption
    | match goal with
      | Hdump : dump_to_fs w _ = throws ?what |- _ =>
          dump_reached [ev_error what []]; right; exists what; repeat split; assumption
      end ].

(** Every run ends before the serialization is called, and not with
    EXIT_SUCCESS, or reaches it after every earlier call went well. *)
Lemma main_cases (argv : list string) :
  (snd (main ptr_bits w argv) <> EXIT_SUCCESS
   /\ existsb is_dump (fst (main ptr_bits w argv)) = false)
  \/ reaches_dump ptr_bits w argv (fst (main ptr_bits w argv)) (snd (main ptr_bits w argv)).
Proof.
  destruct (main ptr_bits w argv) as [tr code] eqn:Hmain.
  cbn [fst snd].
  walk_main argv Hmain cases_fin.
Qed.

Ltac fact_errors :=
  repeat first
    [ progress cbn [filter is_error app List.length]
    | rewrite filter_app
    | rewrite length_app
    | rewrite filter_error_reads
    | rewrite filter_error_adds ];
  reflexivity.

Ltac fact_order :=
  repeat first
    [ progress cbn [places place_of is_scan orb ordered_places Nat.ltb Nat.leb Nat.eqb
                    repeatable andb app]
    | rewrite places_reads
    | rewrite places_adds
    | apply ordered_places_repeat; [reflexivity | reflexivity |] ];
  reflexivity.

Ltac fact_reads :=
  let a := fresh "a" in
  let n := fresh "n" in
  let Hin := fresh "Hin" in
  intros a n Hin;
  repeat first [ rewrite in_app_iff in Hin | progress cbn [In] in Hin ];
  repeat match goal with
         | H : _ \/ _ |- _ => destruct H
         | H : False |- _ => destruct H
         | H : In (ev_read _ _) (add_import_events _) |- _ =>
             exfalso; exact (add_import_events_no_read _ _ _ H)
         | H : _ = ev_read _ _ |- _ =>
             first [ discriminate H | injection H as <- <- ]
         end;
  first
    [ eapply confined_section; try eassumption; left; reflexivity
    | eapply confined_section; try eassumption; right;
      match goal with
      | Hs : vmp_sections _ = _ |- _ => rewrite Hs; apply in_elt
      end
    | eapply confined_read_events; try eassumption;
      first [ intros ? Hname; exact Hname
            | match goal with
              | Hs : vmp_sections _ = _ |- _ =>
                  intros ? Hname; rewrite Hs; apply in_or_app; left; exact Hname
              end ] ].

Ltac fact_args :=
  let e := fresh "e" in
  let Hin := fresh "Hin" in
  intros e Hin;
  repeat first [ rewrite in_app_iff in Hin | progress cbn [In] in Hin ];
  repeat match goal with
         | H : _ \/ _ |- _ => destruct H
         | H : False |- _ => destruct H
         | H : In _ (read_events _ _ _) |- _ =>
             apply read_events_form in H; destruct H as (? & ? & ->)
         | H : In _ (add_import_events _) |- _ =>
             apply add_import_events_form in H; destruct H as (? & ? & ? & ->)
         | H : _ = ?x |- _ => is_var x; subst x
         end;
  unfold call_justified, read_event;
  first
    [ exact I
    | reflexivity
    | unfold imports_resolved, text_read, found_module;
      repeat eexists;
      repeat match goal with |- _ /\ _ => split end;
      first [ eassumption
            | reflexivity
            | match goal with
              | Hi : forall q, In q _ -> In q _ |- In _ _ => apply Hi; eassumption
              end ] ].

Ltac fact_explains :=
  repeat first
    [ progress cbn [forallb app]
    | rewrite forallb_app
    | erewrite explains_reads by eassumption
    | erewrite explains_adds by eassumption ];
  unfold explains, read_event; cbn [failed ends_as uncaught_call];
  rewrite_answers; reflexivity.

Ltac calls_fin :=
  split; [reflexivity | intros ?; first [split; reflexivity | exfalso; lia]].

Ltac fact_calls :=
  repeat first
    [ progress cbn [pipeline_calls call_of app]
    | rewrite pipeline_calls_app
    | rewrite pipeline_calls_reads
    | rewrite pipeline_calls_adds
    | rewrite repeat_snoc_nil ];
  first
    [ exists 0%nat, 0%nat, 0%nat; calls_fin
    | exists 1%nat, 0%nat, 0%nat; calls_fin
    | exists 2%nat, 0%nat, 0%nat; calls_fin
    | exists 3%nat, 0%nat, 0%nat; calls_fin
    | exists 4%nat, 0%nat, 0%nat; calls_fin
    | exists 5%nat, 0%nat, 0%nat; calls_fin
    | exists 5%nat; eexists; exists 0%nat; calls_fin
    | exists 5%nat; eexists; exists 1%nat; calls_fin
    | exists 5%nat; eexists; exists 2%nat; calls_fin
    | exists 5%nat; eexists; exists 3%nat; calls_fin ].

Ltac facts H :=
  land H;
  split; [fact_errors
         | split; [fact_order
                  | split; [fact_reads
                           | split; [fact_args | split; [fact_explains | fact_calls]]]]].

(** What every run keeps, whatever path it takes through [main]. *)
Lemma main_run_facts (argv : list string) :
  List.length (filter is_error (fst (main ptr_bits w argv)))
  = match snd (main ptr_bits w argv) with EXIT_FAILURE => 1%nat | _ => 0%nat end
  /\ ordered_places 0 (places false (fst (main ptr_bits w argv))) = true
  /\ (forall a n, In (ev_read a n) (fst (main ptr_bits w argv)) ->
                  read_confined ptr_bits w argv a n)
  /\ (forall e, In e (fst (main ptr_bits w argv)) -> call_justified ptr_bits w argv e)
  /\ forallb (explains w (snd (main ptr_bits w argv))) (fst (main ptr_bits w argv)) = true
  /\ (exists n k j,
         pipeline_calls (fst (main ptr_bits w argv))
         = firstn n calls_before_loop ++ repeat call_add_import k
           ++ firstn j calls_after_loop
         /\ ((n < 5)%nat -> k = 0%nat /\ j = 0%nat)).
Proof.
  destruct (main ptr_bits w argv) as [tr code] eqn:Hmain.
  cbn [fst snd].
  walk_main argv Hmain facts.
Qed.

(** *** Lists of places *)

Lemma places_app (after_scan : bool) (t1 t2 : list event) :
  places after_scan (t1 ++ t2)
  = places after_scan t1 ++ places (after_scan || existsb is_scan t1) t2.
Proof.
  revert after_scan. induction t1 as [|e t1 IH]; intros after_scan; simpl.
  - rewrite orb_false_r. reflexivity.
  - rewrite IH, orb_assoc. reflexivity.
Qed.

Lemma ordered_places_app_inv (p : nat) (l1 : list nat) (a : nat) (l2 : list nat) :
  ordered_places p (l1 ++ a :: l2) = true -> ordered_places a l2 = true.
Proof.
  revert p. induction l1 as [|x l1 IH]; intros p H; simpl in H;
    apply andb_prop in H; destruct H as [_ H]; [exact H | exact (IH x H)].
Qed.

Lemma ordered_places_all (p : nat) (l : list nat) (b : nat) :
  ordered_places p l = true -> In b l ->
  (p < b)%nat \/ (p = b /\ repeatable p = true).
Proof.
  revert p. induction l as [|x l IH]; intros p H Hin; [destruct Hin|].
  simpl in H. apply andb_prop in H. destruct H as [Hpx H].
  assert (Hstep : (p < x)%nat \/ (p = x /\ repeatable p = true)).
  { apply orb_true_iff in Hpx. destruct Hpx as [Hlt|Heq].
    - left. apply Nat.ltb_lt. exact Hlt.
    - apply andb_prop in Heq. destruct Heq as [Heq Hrep]. apply Nat.eqb_eq in Heq.
      subst x. right. split; [reflexivity | exact Hrep]. }
  destruct Hin as [<-|Hin]; [exact Hstep|].
  destruct (IH x H Hin) as [Hlt|[-> Hrep]].
  - left. destruct Hstep as [Hlt'|[-> _]]; lia.
  - exact Hstep.
Qed.

Lemma place_of_le (after_scan : bool) (e : event) : (place_of after_scan e <= 16)%nat.
Proof. destruct e, after_scan; simpl; lia. Qed.


Lemma filter_one_split {A : Type} (f : A -> bool) (l : list A) :
  List.length (filter f l) = 1%nat ->
  exists pre x post, l = pre ++ x :: post /\ f x = true
                     /\ filter f pre = [] /\ filter f post = [].
Proof.
  induction l as [|a l IH]; simpl; [discriminate|].
  destruct (f a) eqn:Hfa; simpl.
  - intros [= Hlen]. exists [], a, l. repeat split; [exact Hfa|].
    destruct (filter f l); [reflexivity | discriminate].
  - intros Hlen. destruct (IH Hlen) as (pre & x & post & -> & Hx & Hpre & Hpost).
    exists (a :: pre), x, post. repeat split; try assumption.
    simpl. rewrite Hfa. exact Hpre.
Qed.

Lemma filter_nil_not_in {A : Type} (f : A -> bool) (l : list A) (x : A) :
  filter f l = [] -> In x l -> f x = false.
Proof.
  intros Hnil Hin. destruct (f x) eqn:Hfx; [|reflexivity].
  assert (In x (filter f l)) as H by (apply filter_In; split; assumption).
  rewrite Hnil in H. destruct H.
Qed.



(** X12. A run that ends with EXIT_SUCCESS logs no error line; a run that
    ends with EXIT_FAILURE logs exactly one, and it is the last thing the
    run does; a run that is aborted logs none. *)
Theorem one_error_line_on_failure (argv : list string) :
  match snd (main ptr_bits w argv) with
  | EXIT_SUCCESS => forall e, In e (fst (main ptr_bits w argv)) -> is_error e = false
  | EXIT_FAILURE =>
      exists pre fmt args,
        fst (main ptr_bits w argv) = pre ++ [ev_error fmt args]
        /\ (forall e, In e pre -> is_error e = false)
  | ABORTED => forall e, In e (fst (main ptr_bits w argv)) -> is_error e = false
  end.
Proof.
  destruct (main_run_facts argv) as (Hcount & Hord & _ & _ & _ & _).
  assert (Hnone : List.length (filter is_error (fst (main ptr_bits w argv))) = 0%nat ->
                  forall e, In e (fst (main ptr_bits w argv)) -> is_error e = false).
  { intros Hlen e Hin.
    apply (filter_nil_not_in is_error (fst (main ptr_bits w argv))); [|exact Hin].
    destruct (filter is_error (fst (main ptr_bits w argv))); [reflexivity | discriminate]. }
  destruct (snd (main ptr_bits w argv)); [exact (Hnone Hcount) | | exact (Hnone Hcount)].
  destruct (filter_one_split is_error _ Hcount) as (pre & x & post & Htr & Hx & Hpre & Hpost).
  rewrite Htr, places_app in Hord. cbn [places] in Hord.
  apply ordered_places_app_inv in Hord.
  assert (post = []) as ->.
  { destruct post as [|y post]; [reflexivity|]. exfalso.
    destruct x; try discriminate. cbn [place_of places] in Hord.
    destruct (ordered_places_all _ _ _ Hord (or_introl eq_refl)) as [Hlt|[_ Hrep]].
    - pose proof (place_of_le (false || existsb is_scan pre
                               || is_scan (ev_error fmt args)) y). lia.
    - discriminate. }
  destruct x; try discriminate.
  exists pre, fmt, args. split; [exact Htr|].
  intros e Hin. exact (filter_nil_not_in is_error pre e Hpre Hin).
Qed.


(** X14. The driver reads the remote process only at sections of the static
    image: every read of a run is the read of [.text] or of a section the
    configuration lists, at the base of the module plus the virtual address
    of the section's header, and of the header's virtual size. *)
Theorem reads_only_sections (argv : list string) (a n : Z) :
  In (ev_read a n) (fst (main ptr_bits w argv)) ->
  read_confined ptr_bits w argv a n.
Proof.
  intros Hin. destruct (main_run_facts argv) as (_ & _ & Hreads & _ & _ & _).
  apply Hreads. exact Hin.
Qed.

(** X15. When every service answers, the run ends with EXIT_SUCCESS,
    whatever the import records and the mapped modules are, and its log is
    the full sequence of calls: the sections are read in the order [.text],
    then the configured ones, and [map_sections] gets them in that order. *)
Theorem main_succeeds (argv : list string) (actx : string) (cfg : config_context_t)
    (pid : Z) (m : module_t) (img : image_t) (is_x64 : bool)
    (text_section : section_header_t) (buf : list byte)
    (rs : list (section_header_t * list byte)) (calls : list Z)
    (imports : list import_t) (mods : list mapped_module_t) :
  arg_parser_parse w argv = value actx ->
  parse_toml w actx = returns cfg ->
  find_process_id w (process_name cfg) = value pid ->
  attach w pid = true ->
  find_module w (module_name_cfg cfg) = value m ->
  file_load w (path m) = Some img ->
  machine (file_header (nt_headers img)) = (if is_x64 then amd64 else i386) ->
  construct_context w is_x64 = returns tt ->
  compute_sections w (vmp_sections cfg) (address m) img = returns tt ->
  find_section img ".text" = Some text_section ->
  read w (section_address ptr_bits m text_section) (virtual_size text_section) = Some buf ->
  scan_import_calls w (section_address ptr_bits m text_section) buf = returns calls ->
  Forall2 (section_ok ptr_bits w m img) (vmp_sections cfg) rs ->
  map_sections w ((section_address ptr_bits m text_section, buf)
                    :: section_entries ptr_bits m rs) = returns tt ->
  process_import_calls w calls (address m) = returns imports ->
  modules_local_mapped w = value mods ->
  (forall q, In q (iat_rebuild ptr_bits imports mods) ->
             add_import_call w (fst q) (snd q) = returns tt) ->
  initialize_memory_pe w (address m) (size m) = returns tt ->
  reconstruct w (iat_rebuild ptr_bits imports mods) (iat_section_name cfg) = returns tt ->
  dump_to_fs w (dump_path cfg) = returns tt ->
  main ptr_bits w argv
  = ([ev_attach pid; ev_file_load (path m); ev_construct_context is_x64;
      ev_compute_sections (vmp_sections cfg) (address m) img;
      read_event ptr_bits m text_section;
      ev_scan_import_calls (section_address ptr_bits m text_section) buf]
     ++ read_events ptr_bits m rs
     ++ [ev_map_sections ((section_address ptr_bits m text_section, buf)
                            :: section_entries ptr_bits m rs);
         ev_process_import_calls calls (address m);
         ev_modules_local_mapped; ev_info "starting iat rebuild..."]
     ++ add_import_events (iat_rebuild ptr_bits imports mods)
     ++ [ev_initialize_memory_pe (address m) (size m);
         ev_reconstruct (iat_rebuild ptr_bits imports mods) (iat_section_name cfg);
         ev_dump_to_fs (dump_path cfg)],
     EXIT_SUCCESS).
Proof.
  intros Hargs Hcfg Hpid Hattach Hmod Hload Hmachine Hctx Hcomp Htext Hread Hscan Hall
    Hmap Hproc Hmods Hadds Hinit Hrec Hdump.
  unfold main, main_m.
  rewrite Hargs. cbn [or_fail]. rewrite bind_ret_l.
  rewrite Hcfg. cbn [try_catch]. rewrite bind_ret_l.
  rewrite Hpid. cbn [or_fail]. rewrite bind_ret_l.
  rewrite Hattach, Hmod. cbn [or_fail]. rewrite !bind_ret_l.
  rewrite Hload, bind_ret_l, Hmachine.
  assert (Harch : (match (if is_x64 then amd64 else i386) with
                   | amd64 => ret true
                   | i386 => ret false
                   | machine_other _ =>
                       fail "invalid machine id. this software only supports x86 and x86_64 portable executables!" []
                   end : M bool) = ret is_x64) by (destruct is_x64; reflexivity).
  rewrite Harch, bind_ret_l. clear Harch.
  unfold main_pipeline.
  rewrite Hctx, Hcomp, Htext. cbn [try_catch]. rewrite !bind_ret_l.
  rewrite (read_section_ok ptr_bits w m text_section buf Hread).
  cbn [bind emit ret app fst snd].
  rewrite Hscan. cbn [uncaught bind emit ret app fst snd].
  assert (Hloop : forall names rs0,
             Forall2 (section_ok ptr_bits w m img) names rs0 ->
             forall acc,
               vmp_sections_loop ptr_bits w m img names acc
               = (read_events ptr_bits m rs0, inr (acc ++ section_entries ptr_bits m rs0))).
  { intros names rs0 H0.
    induction H0 as [|name r names rs0 [Hfind Hrd] _ IH]; intros acc; simpl.
    - rewrite app_nil_r. reflexivity.
    - rewrite Hfind, (read_section_ok ptr_bits w m (fst r) (snd r) Hrd). cbn [bind].
      rewrite IH. cbn [app]. rewrite <- app_assoc. reflexivity. }
  rewrite (Hloop _ _ Hall). cbn [bind emit ret app fst snd].
  rewrite Hmap, Hproc, Hmods. cbn [try_catch or_fail bind emit ret app fst snd].
  rewrite (add_imports_ok _ Hadds). cbn [try_catch or_fail bind emit ret app fst snd].
  rewrite Hinit. cbn [try_catch or_fail bind emit ret app fst snd].
  rewrite Hrec. cbn [try_catch or_fail bind emit ret app fst snd].
  rewrite Hdump. cbn [try_catch or_fail bind emit ret exit run app fst snd].
  reflexivity.
Qed.

(** X16. In every run, whatever fails later, each call gets what the calls
    before it answered: the scanner the bytes read from [.text] and the
    address they were read at, [map_sections] the entry of [.text] followed
    by the entries of the configured sections, [process_import_calls] all
    the scanner returned and the base of the module, [reconstruct] the
    table rebuilt from the records the resolver answered and the modules
    enumerated, under the configured section name, and [dump_to_fs] the
    configured dump path. *)
Theorem calls_get_earlier_answers (argv : list string) (e : event) :
  In e (fst (main ptr_bits w argv)) -> call_justified ptr_bits w argv e.
Proof.
  intros Hin. destruct (main_run_facts argv) as (_ & _ & _ & Hargs & _ & _).
  apply Hargs. exact Hin.
Qed.

(** X17. A run ends with EXIT_SUCCESS only when its last event is the call
    of the serialization, to the configured dump path, and that call
    returned: there is no path to EXIT_SUCCESS that skips the write. *)
Theorem success_only_after_dump (argv : list string) :
  snd (main ptr_bits w argv) = EXIT_SUCCESS ->
  exists pre p,
    fst (main ptr_bits w argv) = pre ++ [ev_dump_to_fs p]
    /\ dump_to_fs w p = returns tt
    /\ (forall e, In e pre -> failed w e = false /\ is_dump e = false).
Proof.
  intros Hok.
  destruct (main_cases argv) as [[Hcode _]|Hreach]; [contradiction|].
  destruct Hreach as (actx & cfg & pid & m & img & is_x64 & text_section & text & rest
                      & calls & imports & mods & pre & post
                      & _ & _ & _ & _ & _ & _ & _ & _ & _ & _ & _
                      & _ & Htr & Hpass & _ & _ & _ & _ & Hdump).
  destruct Hdump as [(Hret & -> & _)|(what & _ & _ & Hcode)]; [|congruence].
  exists pre, (dump_path cfg). split; [exact Htr|]. split; [exact Hret|].
  intros e Hin. exact (passed_not_failed pre e Hpass Hin).
Qed.

End MainMore.

(** ** The further theorems on the small process *)

Lemma iat_rebuild_sound_witness :
  exists imp m e,
    In imp Demo.imports /\ In m Demo.mapped_modules /\ In e (exports (pe m))
    /\ import_matches 64 imp m e
    /\ "kernel32.dll" = module_name m /\ "Sleep" = export_name e.
Proof.
  apply (iat_rebuild_sound 64 Demo.imports Demo.mapped_modules "kernel32.dll" "Sleep").
  vm_compute. left. reflexivity.
Defined.

Lemma import_body_unchanged_iff_witness :
  import_body 64 Demo.mapped_modules [("kernel32.dll", "Sleep")] Demo.dangling_import
  = [("kernel32.dll", "Sleep")].
Proof.
  apply (proj2 (import_body_unchanged_iff 64 Demo.mapped_modules
                  [("kernel32.dll", "Sleep")] Demo.dangling_import)).
  intros m e Hm He. unfold import_matches.
  destruct Hm as [<-|[<-|[]]]; simpl in He;
    repeat (destruct He as [<-|He]); try destruct He;
    vm_compute; discriminate.
Defined.

Lemma iat_rebuild_ignores_call_site_witness :
  iat_rebuild 64 [Demo.resolved_import] Demo.mapped_modules
  = iat_rebuild 64 [{| call_site_va := 0; import_address := 0x7FFE0000 |}]
      Demo.mapped_modules.
Proof.
  apply (iat_rebuild_ignores_call_site 64 [Demo.resolved_import]
           [{| call_site_va := 0; import_address := 0x7FFE0000 |}] Demo.mapped_modules).
  reflexivity.
Defined.

Lemma import_matches_in_range_witness :
  import_matches 64 Demo.resolved_import Demo.kernel32
    {| export_name := "Sleep"; export_va := 0; export_ordinal := 2 |}
  <-> import_address Demo.resolved_import
      = remote_image_base Demo.kernel32
        + export_va {| export_name := "Sleep"; export_va := 0; export_ordinal := 2 |}.
Proof.
  apply (import_matches_in_range 64 Demo.resolved_import Demo.kernel32
           {| export_name := "Sleep"; export_va := 0; export_ordinal := 2 |}).
  - split; [vm_compute; discriminate | vm_compute; reflexivity].
  - vm_compute. discriminate.
  - vm_compute. discriminate.
  - vm_compute. reflexivity.
Defined.

Lemma import_body_order_irrelevant_witness :
  import_body 64 [Demo.kernel32; Demo.kernelbase] []
    {| call_site_va := 0x140001000; import_address := 0x7FFE0040 |}
  = import_body 64 [Demo.kernelbase; Demo.kernel32] []
      {| call_site_va := 0x140001000; import_address := 0x7FFE0040 |}.
Proof.
  apply (import_body_order_irrelevant 64
           {| call_site_va := 0x140001000; import_address := 0x7FFE0040 |}
           [Demo.kernel32; Demo.kernelbase] [Demo.kernelbase; Demo.kernel32] []).
  - apply perm_swap.
  - intros m1 e1 m2 e2 Hm1 He1 Hmatch1 Hm2 He2 Hmatch2.
    unfold import_matches in Hmatch1, Hmatch2.
    destruct Hm1 as [<-|[<-|[]]]; simpl in He1;
      repeat (destruct He1 as [<-|He1]); try destruct He1;
      vm_compute in Hmatch1; try discriminate Hmatch1;
      destruct Hm2 as [<-|[<-|[]]]; simpl in He2;
      repeat (destruct He2 as [<-|He2]); try destruct He2;
      vm_compute in Hmatch2; try discriminate Hmatch2;
      split; reflexivity.
Defined.

Lemma vmp_sections_loop_all_read_witness :
  vmp_sections_loop 64 Demo.w Demo.module Demo.image [".vmp0"] []
  = (read_events 64 Demo.module
       [({| virtual_address := 0x3000; virtual_size := 4 |}, repeat x00 4)],
     inr ([] ++ section_entries 64 Demo.module
                  [({| virtual_address := 0x3000; virtual_size := 4 |}, repeat x00 4)])).
Proof.
  apply (vmp_sections_loop_all_read 64 Demo.w Demo.module Demo.image [".vmp0"]
           [({| virtual_address := 0x3000; virtual_size := 4 |}, repeat x00 4)] []).
  constructor; [split; reflexivity | constructor].
Defined.

Lemma vmp_sections_loop_first_missing_witness :
  vmp_sections_loop 64 Demo.w Demo.module Demo.image ([".vmp0"] ++ ".vmp9" :: [".text"]) []
  = (read_events 64 Demo.module
       [({| virtual_address := 0x3000; virtual_size := 4 |}, repeat x00 4)]
       ++ [ev_error "failed to find section {}" [arg_str ".vmp9"]],
     inl EXIT_FAILURE).
Proof.
  apply (vmp_sections_loop_first_missing 64 Demo.w Demo.module Demo.image [".vmp0"] ".vmp9"
           [".text"] [({| virtual_address := 0x3000; virtual_size := 4 |}, repeat x00 4)] []).
  - constructor; [split; reflexivity | constructor].
  - reflexivity.
Defined.

Lemma vmp_sections_loop_first_unreadable_witness :
  vmp_sections_loop 64 Demo.w_unreadable Demo.module Demo.image
    ([".text"] ++ ".vmp0" :: [".text"]) []
  = (read_events 64 Demo.module
       [({| virtual_address := 0x1000; virtual_size := 5 |}, repeat x00 5)]
       ++ [read_event 64 Demo.module {| virtual_address := 0x3000; virtual_size := 4 |};
           ev_error "failed to read from remote process" []],
     inl EXIT_FAILURE).
Proof.
  apply (vmp_sections_loop_first_unreadable 64 Demo.w_unreadable Demo.module Demo.image
           [".text"] ".vmp0" [".text"]
           [({| virtual_address := 0x1000; virtual_size := 5 |}, repeat x00 5)]
           {| virtual_address := 0x3000; virtual_size := 4 |} []).
  - constructor; [split; reflexivity | constructor].
  - reflexivity.
  - reflexivity.
Defined.


(** The same happens when an [add_import] call throws: the run is aborted
    after that call, and neither [reconstruct] nor [dump_to_fs] is called. *)
Lemma add_import_exception_aborts :
  main 64 Demo.w_add_throws Demo.argv
  = (firstn 11 (fst (main 64 Demo.w Demo.argv)) ++ [ev_add_import "kernel32.dll" "Sleep"],
     ABORTED).
Proof. vm_compute. reflexivity. Qed.




Lemma reads_only_sections_witness :
  read_confined 64 Demo.w Demo.argv 0x140003000 4.
Proof.
  apply (reads_only_sections 64 Demo.w Demo.argv 0x140003000 4).
  vm_compute. do 6 right. left. reflexivity.
Defined.

Lemma main_succeeds_witness :
  main 64 Demo.w Demo.argv
  = ([ev_attach 4242; ev_file_load (path Demo.module); ev_construct_context true;
      ev_compute_sections (vmp_sections Demo.config_ctx) (address Demo.module) Demo.image;
      read_event 64 Demo.module {| virtual_address := 0x1000; virtual_size := 5 |};
      ev_scan_import_calls
        (section_address 64 Demo.module {| virtual_address := 0x1000; virtual_size := 5 |})
        (repeat x00 5)]
     ++ read_events 64 Demo.module
          [({| virtual_address := 0x3000; virtual_size := 4 |}, repeat x00 4)]
     ++ [ev_map_sections
           ((section_address 64 Demo.module {| virtual_address := 0x1000; virtual_size := 5 |},
             repeat x00 5)
              :: section_entries 64 Demo.module
                   [({| virtual_address := 0x3000; virtual_size := 4 |}, repeat x00 4)]);
         ev_process_import_calls [0x140001000] (address Demo.module);
         ev_modules_local_mapped; ev_info "starting iat rebuild..."]
     ++ add_import_events (iat_rebuild 64 Demo.imports Demo.mapped_modules)
     ++ [ev_initialize_memory_pe (address Demo.module) (size Demo.module);
         ev_reconstruct (iat_rebuild 64 Demo.imports Demo.mapped_modules)
           (iat_section_name Demo.config_ctx);
         ev_dump_to_fs (dump_path Demo.config_ctx)],
     EXIT_SUCCESS).
Proof.
  apply (main_succeeds 64 Demo.w Demo.argv "config.toml" Demo.config_ctx 4242 Demo.module
           Demo.image true {| virtual_address := 0x1000; virtual_size := 5 |} (repeat x00 5)
           [({| virtual_address := 0x3000; virtual_size := 4 |}, repeat x00 4)]
           [0x140001000] Demo.imports Demo.mapped_modules);
    try reflexivity.
  constructor; [split; reflexivity | constructor].
Defined.

Lemma calls_get_earlier_answers_witness :
  call_justified 64 Demo.w Demo.argv (ev_reconstruct [("kernel32.dll", "Sleep")] ".newiat").
Proof.
  apply (calls_get_earlier_answers 64 Demo.w Demo.argv
           (ev_reconstruct [("kernel32.dll", "Sleep")] ".newiat")).
  vm_compute. do 13 right. left. reflexivity.
Defined.

Lemma success_only_after_dump_witness :
  exists pre p,
    fst (main 64 Demo.w Demo.argv) = pre ++ [ev_dump_to_fs p]
    /\ dump_to_fs Demo.w p = returns tt
    /\ (forall e, In e pre -> failed Demo.w e = false /\ is_dump e = false).
Proof.
  apply (success_only_after_dump 64 Demo.w Demo.argv).
  vm_compute. reflexivity.
Defined.
